(** * lab2.py: simulator of deterministic finite automata (class [AFD])

    A shallow embedding of the class [AFD] of [lab2.py] and of its query
    methods [transition], [final_state], [derivation] and [accepted],
    together with the properties of the engine stated in the specification.

    Typing of the Python values.  State and symbol labels are Python [str]
    values ([string]); [Q], [Sigma] and [F] are Python lists of labels
    ([list string], membership [x in l] is membership by equality); the
    transition table is a [dict] keyed by pairs [(q, a)]
    ([gmap (string * string) string]).  A word [w] is any iterable of
    symbols ([list string]); a Python [str] is iterated one character at a
    time, see [chars].  [None] is never a label, so that the [None] returned
    by [dict.get] is the [None] of [option]. *)

From stdpp Require Import gmap strings list fin_maps pretty.

Open Scope string_scope.
Open Scope list_scope.

(** ** Exceptions *)

(** The [ValueError]s the class can raise, with the values interpolated in
    their messages.  [UnpackError] is the one raised by the tuple unpacking
    [for (q, a, q_prime) in delta] of [__init__] on a row that has not
    exactly three components. *)
Inductive ValueError : Type :=
  | SymbolNotInAlphabet (symbol : string)
  | UndefinedTransition (current_state symbol : string)
  | UnpackError (got : nat).

(** The result of a call: a returned value or a raised [ValueError]. *)
Inductive result (A : Type) : Type :=
  | Ok (x : A)
  | Raise (e : ValueError).
Arguments Ok {A} x.
Arguments Raise {A} e.

(** Sequencing: an exception raised by the first call is propagated. *)
Global Instance result_bind : MBind result := λ A B k r,
  match r with
  | Ok x => k x
  | Raise e => Raise e
  end.
Global Instance result_ret : MRet result := λ A x, Ok x.

(** The text of the message of each exception of the query methods. *)
Definition message (e : ValueError) : string :=
  match e with
  | SymbolNotInAlphabet symbol =>
      "Símbolo '" +:+ symbol +:+ "' no está en el alfabeto"
  | UndefinedTransition current_state symbol =>
      "No hay transición definida desde " +:+ current_state
        +:+ " con símbolo '" +:+ symbol +:+ "'"
  | UnpackError got =>
      if decide (got < 3)
      then "not enough values to unpack (expected 3, got "
             +:+ pretty got +:+ ")"
      else "too many values to unpack (expected 3)"
  end.

(** ** The automaton *)

Record AFD : Type := mkAFD {
  Q : list string;
  Sigma : list string;
  q0 : string;
  F : list string;
  delta : gmap (string * string) string
}.

(** The two shapes of the argument [delta] of [__init__]. *)
Inductive delta_arg : Type :=
  | DeltaDict (d : gmap (string * string) string)
  | DeltaList (rows : list (list string)).

(** [(q, a, q_prime) = row] *)
Definition unpack3 (row : list string) : result (string * string * string) :=
  match row with
  | [q; a; q_prime] => Ok (q, a, q_prime)
  | _ => Raise (UnpackError (length row))
  end.

(** The loop [for (q, a, q_prime) in delta: self.delta[(q, a)] = q_prime],
    started on the dictionary [d] built so far. *)
Fixpoint load_rows (rows : list (list string))
    (d : gmap (string * string) string)
    : result (gmap (string * string) string) :=
  match rows with
  | [] => Ok d
  | row :: rows' =>
      '(q, a, q_prime) ← unpack3 row ;
      load_rows rows' (<[(q, a) := q_prime]> d)
  end.

(** [AFD.__init__] *)
Definition AFD_init (Q Sigma : list string) (q0 : string) (F : list string)
    (delta : delta_arg) : result AFD :=
  match delta with
  | DeltaList rows =>
      d ← load_rows rows ∅ ;
      Ok (mkAFD Q Sigma q0 F d)
  | DeltaDict d => Ok (mkAFD Q Sigma q0 F d)
  end.

(** The iteration [for symbol in w] over a Python [str]. *)
Fixpoint chars (w : string) : list string :=
  match w with
  | EmptyString => []
  | String c w' => String c EmptyString :: chars w'
  end.

(** A row of the list shape, from a triple. *)
Definition row_of (t : string * string * string) : list string :=
  let '(q, a, q_prime) := t in [q; a; q_prime].

(** ** The query methods *)

Section Queries.
Variable self : AFD.

(** [AFD.transition]: [self.delta.get((q, a), None)] *)
Definition transition (q a : string) : option string :=
  delta self !! (q, a).

(** [AFD.final_state]; the argument [q] is the variable [current_state]
    of the loop. *)
Fixpoint final_state (q : string) (w : list string) : result string :=
  match w with
  | [] => Ok q
  | symbol :: w' =>
      if bool_decide (symbol ∈ Sigma self) then
        match transition q symbol with
        | None => Raise (UndefinedTransition q symbol)
        | Some next_state => final_state next_state w'
        end
      else Raise (SymbolNotInAlphabet symbol)
  end.

(** The loop of [AFD.derivation], with [derivation_steps] the list
    accumulated so far and [q] the variable [current_state]. *)
Fixpoint derivation_loop (derivation_steps : list (string * string * string))
    (q : string) (w : list string)
    : result (list (string * string * string)) :=
  match w with
  | [] => Ok derivation_steps
  | symbol :: w' =>
      if bool_decide (symbol ∈ Sigma self) then
        match transition q symbol with
        | None => Raise (UndefinedTransition q symbol)
        | Some next_state =>
            derivation_loop (derivation_steps ++ [(q, symbol, next_state)])
              next_state w'
        end
      else Raise (SymbolNotInAlphabet symbol)
  end.

(** [AFD.derivation] *)
Definition derivation (q : string) (w : list string)
    : result (list (string * string * string)) :=
  derivation_loop [] q w.

(** [AFD.accepted]; [None] for the argument [F] is its default. *)
Definition accepted (q : string) (w : list string)
    (F_arg : option (list string)) : bool :=
  let F' := match F_arg with None => F self | Some F' => F' end in
  match final_state q w with
  | Ok final => bool_decide (final ∈ F')
  | Raise _ => false
  end.
End Queries.

(** ** The automata of the examples *)

(** The automaton of [ejemplo_afd_1]: words over 0, 1 that end in 01. *)
Definition afd1 : result AFD :=
  AFD_init ["q0"; "q1"; "q2"] ["0"; "1"] "q0" ["q2"]
    (DeltaList [ ["q0"; "0"; "q1"]; ["q0"; "1"; "q0"];
                 ["q1"; "0"; "q1"]; ["q1"; "1"; "q2"];
                 ["q2"; "0"; "q1"]; ["q2"; "1"; "q0"] ]).

(** The automaton of [ejemplo_afd_2]: words over a, b with an even number
    of a. *)
Definition afd2 : result AFD :=
  AFD_init ["par"; "impar"] ["a"; "b"] "par" ["par"]
    (DeltaDict (<[("par", "a") := "impar"]> (<[("par", "b") := "par"]>
               (<[("impar", "a") := "par"]> (<[("impar", "b") := "impar"]>
                ∅))))).

(** The object that the construction of [ejemplo_afd_1] returns. *)
Definition afd1_object : AFD :=
  mkAFD ["q0"; "q1"; "q2"] ["0"; "1"] "q0" ["q2"]
    (<[("q2", "1") := "q0"]> (<[("q2", "0") := "q1"]>
    (<[("q1", "1") := "q2"]> (<[("q1", "0") := "q1"]>
    (<[("q0", "1") := "q0"]> (<[("q0", "0") := "q1"]> ∅)))))).

(** ** Predicates of the statements *)

(** The path of [w] from [q] in the raw table [d] is defined at each step. *)
Fixpoint path_defined (d : gmap (string * string) string) (q : string)
    (w : list string) : bool :=
  match w with
  | [] => true
  | a :: w' =>
      match d !! (q, a) with
      | Some q' => path_defined d q' w'
      | None => false
      end
  end.

(** The third component of the last step of a trace, [q] for the empty one. *)
Definition last_target (q : string) (tr : list (string * string * string))
    : string :=
  match last tr with
  | Some (_, _, q') => q'
  | None => q
  end.

(** The key of a triple. *)
Definition key_of (t : string * string * string) : string * string :=
  (t.1.1, t.1.2).

(** The accepting set in effect for a call of [accepted]. *)
Definition active_F (self : AFD) (F_arg : option (list string)) : list string :=
  default (F self) F_arg.

(** The assignment [self.delta[(q, a)] = q_prime] for the triple [t]. *)
Definition assign (d : gmap (string * string) string)
    (t : string * string * string) : gmap (string * string) string :=
  <[key_of t := t.2]> d.

(** An automaton whose table has an entry for the symbol z, which is not in
    its alphabet, and no entry for b, which is. *)
Definition afd_raw_entry : AFD :=
  mkAFD ["s"] ["a"; "b"] "s" ["s"]
    (<[("s", "a") := "s"]> (<[("s", "z") := "s"]> ∅)).

(** An automaton that declares no state. *)
Definition afd_no_states : AFD :=
  mkAFD [] ["a"] "p" ["r"] (<[("p", "a") := "r"]> (<[("r", "a") := "p"]> ∅)).

(** The functional methods, under names that the methods on the store do
    not hide. *)
Abbreviation run_transition := transition.
Abbreviation run_final_state := final_state.
Abbreviation run_derivation_loop := derivation_loop.
Abbreviation run_derivation := derivation.
Abbreviation run_accepted := accepted.

(** * The objects in the store

    The same methods, on a store of Python objects: the instance holds
    references to the lists [Q], [Sigma], [F] and to the dictionary [delta]
    that it was given, and [derivation] builds its trace in a list that it
    allocates.  A call takes the store and returns it with its outcome, so
    that what a call writes is visible. *)
Module Store.

(** A reference: the index of an object in the store. *)
Abbreviation loc := nat.

Inductive object : Type :=
  | LabelList (items : list string)
  | Dict (d : gmap (string * string) string)
  | StepList (items : list (string * string * string))
  | Instance (Q Sigma : loc) (q0 : string) (F delta : loc).

Abbreviation store := (list object).

(** The exceptions: the [ValueError]s of the class, and the error of an
    operation applied to an object of the wrong kind. *)
Inductive exn : Type :=
  | EValueError (e : ValueError)
  | ETypeError.

Inductive outcome (A : Type) : Type :=
  | Returns (x : A)
  | Raises (e : exn).
Arguments Returns {A} x.
Arguments Raises {A} e.

(** A computation on the store.  An exception does not undo the writes
    made before it. *)
Definition M (A : Type) : Type := store → outcome A * store.

Definition ret {A : Type} (x : A) : M A := λ h, (Returns x, h).

Definition raise {A : Type} (e : exn) : M A := λ h, (Raises e, h).

Global Instance M_bind : MBind M := λ A B k m h,
  match m h with
  | (Returns x, h') => k x h'
  | (Raises e, h') => (Raises e, h')
  end.

(** [try: m except ValueError: handler] *)
Definition try_except_ValueError {A : Type} (m handler : M A) : M A := λ h,
  match m h with
  | (Raises (EValueError _), h') => handler h'
  | r => r
  end.

(** The attributes [self.Sigma], [self.F] and [self.delta]. *)
Definition attr_Sigma (self : loc) : M loc := λ h,
  match h !! self with
  | Some (Instance _ Sigma _ _ _) => (Returns Sigma, h)
  | _ => (Raises ETypeError, h)
  end.

Definition attr_F (self : loc) : M loc := λ h,
  match h !! self with
  | Some (Instance _ _ _ F _) => (Returns F, h)
  | _ => (Raises ETypeError, h)
  end.

Definition attr_delta (self : loc) : M loc := λ h,
  match h !! self with
  | Some (Instance _ _ _ _ delta) => (Returns delta, h)
  | _ => (Raises ETypeError, h)
  end.

(** [x in l] for a list of labels. *)
Definition contains (l : loc) (x : string) : M bool := λ h,
  match h !! l with
  | Some (LabelList items) => (Returns (bool_decide (x ∈ items)), h)
  | _ => (Raises ETypeError, h)
  end.

(** [d.get(k, None)] *)
Definition dict_get (l : loc) (k : string * string) : M (option string) :=
  λ h,
  match h !! l with
  | Some (Dict d) => (Returns (d !! k), h)
  | _ => (Raises ETypeError, h)
  end.

(** The allocation of an empty list, [[]]. *)
Definition new_list : M loc := λ h, (Returns (length h), h ++ [StepList []]).

(** [l.append(t)] *)
Definition append (l : loc) (t : string * string * string) : M unit := λ h,
  match h !! l with
  | Some (StepList items) => (Returns (), <[l := StepList (items ++ [t])]> h)
  | _ => (Raises ETypeError, h)
  end.

(** [AFD.transition] *)
Definition transition (self : loc) (q a : string) : M (option string) :=
  d ← attr_delta self ;
  dict_get d (q, a).

(** [AFD.final_state] *)
Fixpoint final_state (self : loc) (q : string) (w : list string)
    : M string :=
  match w with
  | [] => ret q
  | symbol :: w' =>
      Sigma ← attr_Sigma self ;
      known ← contains Sigma symbol ;
      if known : bool then
        next_state ← transition self q symbol ;
        match next_state with
        | None => raise (EValueError (UndefinedTransition q symbol))
        | Some next_state => final_state self next_state w'
        end
      else raise (EValueError (SymbolNotInAlphabet symbol))
  end.

(** The loop of [AFD.derivation]; [derivation_steps] is the reference to
    the list of the steps. *)
Fixpoint derivation_loop (self : loc) (derivation_steps : loc) (q : string)
    (w : list string) : M unit :=
  match w with
  | [] => ret ()
  | symbol :: w' =>
      Sigma ← attr_Sigma self ;
      known ← contains Sigma symbol ;
      if known : bool then
        next_state ← transition self q symbol ;
        match next_state with
        | None => raise (EValueError (UndefinedTransition q symbol))
        | Some next_state =>
            _ ← append derivation_steps (q, symbol, next_state) ;
            derivation_loop self derivation_steps next_state w'
        end
      else raise (EValueError (SymbolNotInAlphabet symbol))
  end.

(** [AFD.derivation]; it returns the reference to the list it built. *)
Definition derivation (self : loc) (q : string) (w : list string) : M loc :=
  derivation_steps ← new_list ;
  _ ← derivation_loop self derivation_steps q w ;
  ret derivation_steps.

(** [AFD.accepted]; the argument [F] is a reference to a list, or [None]. *)
Definition accepted (self : loc) (q : string) (w : list string)
    (F_arg : option loc) : M bool :=
  F ← match F_arg with
      | None => attr_F self
      | Some F => ret F
      end ;
  try_except_ValueError
    (final ← final_state self q w ; contains F final)
    (ret false).

(** The automaton that the object at [self] stands for. *)
Definition read_AFD (h : store) (self : loc) : option AFD :=
  match h !! self with
  | Some (Instance lQ lSigma q0 lF ldelta) =>
      match h !! lQ, h !! lSigma, h !! lF, h !! ldelta with
      | Some (LabelList Q), Some (LabelList Sigma), Some (LabelList F),
        Some (Dict delta) => Some (mkAFD Q Sigma q0 F delta)
      | _, _, _, _ => None
      end
  | _ => None
  end.

(** The outcome in the store of a result of the functional methods. *)
Definition of_result {A : Type} (r : result A) : outcome A :=
  match r with
  | Ok x => Returns x
  | Raise e => Raises (EValueError e)
  end.

(** A store with the objects of the first example: the three lists, the
    dictionary, and the instance, at the reference 4. *)
Definition store_afd1 : store :=
  [ LabelList ["q0"; "q1"; "q2"]; LabelList ["0"; "1"]; LabelList ["q2"];
    Dict (delta afd1_object); Instance 0 1 "q0" 2 3 ].

(** A computation that leaves the store as it found it, whatever its
    outcome. *)
Definition read_only {A : Type} (m : M A) : Prop := ∀ h, (m h).2 = h.

End Store.

(** * Further definitions

    The statements below on the runs, on the construction and on the
    automata of the examples use the following. *)

(** The symbol that a step reads, and the word that a trace reads. *)
Definition symbol_of (t : string * string * string) : string := t.1.2.

Definition word_of (tr : list (string * string * string)) : list string :=
  symbol_of <$> tr.

(** The states that a trace goes through after its start. *)
Definition targets_of (tr : list (string * string * string)) : list string :=
  (λ t, t.2) <$> tr.

(** A trace that starts in [q], each step of which reads a symbol of the
    alphabet, follows an entry of the table and starts where the step
    before it ended. *)
Fixpoint valid_run (self : AFD) (q : string)
    (tr : list (string * string * string)) : Prop :=
  match tr with
  | [] => True
  | (s, a, t) :: tr' =>
      s = q ∧ a ∈ Sigma self ∧ delta self !! (s, a) = Some t
      ∧ valid_run self t tr'
  end.

(** The targets of the table are declared states. *)
Definition targets_in_Q (self : AFD) : Prop :=
  map_Forall (λ _ t, t ∈ Q self) (delta self).

(** The table has an entry for each declared state and each symbol. *)
Definition complete (self : AFD) : Prop :=
  Forall (λ q, Forall (λ a, is_Some (delta self !! (q, a))) (Sigma self))
    (Q self).

(** The object that the construction of [ejemplo_afd_2] returns. *)
Definition afd2_object : AFD :=
  mkAFD ["par"; "impar"] ["a"; "b"] "par" ["par"]
    (<[("par", "a") := "impar"]> (<[("par", "b") := "par"]>
    (<[("impar", "a") := "par"]> (<[("impar", "b") := "impar"]> ∅)))).

(** * The console functions

    [crear_afd_manual] and [probar_cadenas_interactivo] talk to the user:
    the lines that the successive calls of [input] return are given as a
    list, and a call of [input] when the list is exhausted raises
    [EOFError].  The prompts and the messages of [crear_afd_manual] are not
    modelled; what [probar_cadenas_interactivo] prints is, as the list of
    the values printed.  [strip] and [lower] stand for the methods
    [str.strip] and [str.lower] of Python. *)

(** [s.split(',')]; 44 is the code of the comma. *)
Fixpoint split_comma (s : string) : list string :=
  match s with
  | EmptyString => [""]
  | String c s' =>
      if Ascii.eqb c (Ascii.ascii_of_nat 44) then "" :: split_comma s'
      else
        match split_comma s' with
        | part :: parts => String c part :: parts
        | [] => [String c ""]
        end
  end.



Section Console.
Variable strip : string → string.
Variable lower : string → string.

(** [[s.strip() for s in line.split(',') if s.strip()]] *)
Definition labels_of (line : string) : list string :=
  filter (λ s, s ≠ "") (strip <$> split_comma line).

(** The loop [while True] of [crear_afd_manual] that reads the
    transitions; [delta] is the list built so far.  [None] is the
    [EOFError] of [input]. *)
Fixpoint read_transitions (Q Sigma : list string) (lines : list string)
    (delta : list (string * string * string))
    : option (list (string * string * string)) :=
  match lines with
  | [] => None
  | line :: lines' =>
      let trans_input := strip line in
      if bool_decide (trans_input = "") then Some delta
      else
        match strip <$> split_comma trans_input with
        | [q_from; symbol; q_to] =>
            if bool_decide (q_from ∉ Q) then
              read_transitions Q Sigma lines' delta
            else if bool_decide (symbol ∉ Sigma) then
              read_transitions Q Sigma lines' delta
            else if bool_decide (q_to ∉ Q) then
              read_transitions Q Sigma lines' delta
            else
              read_transitions Q Sigma lines'
                (delta ++ [(q_from, symbol, q_to)])
        | _ => read_transitions Q Sigma lines' delta
        end
  end.

(** [crear_afd_manual]: the automaton returned, or [None]. *)
Definition crear_afd_manual (lines : list string) : option AFD :=
  match lines with
  | [] => None
  | estados_input :: lines =>
      let Q := labels_of (strip estados_input) in
      if bool_decide (Q = []) then None else
      match lines with
      | [] => None
      | alfabeto_input :: lines =>
          let Sigma := labels_of (strip alfabeto_input) in
          if bool_decide (Sigma = []) then None else
          match lines with
          | [] => None
          | q0_input :: lines =>
              let q0 := strip q0_input in
              if bool_decide (q0 ∉ Q) then None else
              match lines with
              | [] => None
              | final_input :: lines =>
                  let F :=
                    filter (λ s, s ≠ "" ∧ s ∈ Q)
                      (strip <$> split_comma (strip final_input)) in
                  match read_transitions Q Sigma lines [] with
                  | None => None
                  | Some delta =>
                      match AFD_init Q Sigma q0 F
                              (DeltaList (row_of <$> delta)) with
                      | Ok afd => Some afd
                      | Raise _ => None
                      end
                  end
              end
          end
      end
  end.


End Console.


(** * Properties of the functional methods *)

Example afd1_returns : afd1 = Ok afd1_object.
Proof. reflexivity. Qed.

Example afd1_101 :
  (A ← afd1 ; derivation A "q0" (chars "101"))
  = Ok [("q0", "1", "q0"); ("q0", "0", "q1"); ("q1", "1", "q2")].
Proof. vm_compute. reflexivity. Qed.

Example afd2_aab :
  (A ← afd2 ; Ok (accepted A "par" (chars "aab") None,
                  accepted A "par" (chars "aba") None,
                  accepted A "par" (chars "ab") None))
  = Ok (true, true, false).
Proof. vm_compute. reflexivity. Qed.

(** The two exceptions of the queries are told apart by their messages. *)
Lemma message_tells_kind a s b :
  message (SymbolNotInAlphabet a) ≠ message (UndefinedTransition s b).
Proof. discriminate. Qed.

(** ** Lemmas on the loops *)

Section Loops.
Variable self : AFD.

Lemma final_state_cons_in q a w :
  a ∈ Sigma self →
  final_state self q (a :: w)
  = match transition self q a with
    | Some q' => final_state self q' w
    | None => Raise (UndefinedTransition q a)
    end.
Proof. intros Ha. simpl. rewrite bool_decide_eq_true_2 by done. done. Qed.

Lemma final_state_cons_notin q a w :
  a ∉ Sigma self →
  final_state self q (a :: w) = Raise (SymbolNotInAlphabet a).
Proof. intros Ha. simpl. by rewrite bool_decide_eq_false_2. Qed.

(** Reading [w1 ++ w2] is reading [w1], then [w2] from the state reached. *)
Lemma final_state_app q w1 w2 :
  final_state self q (w1 ++ w2)
  = (q' ← final_state self q w1; final_state self q' w2).
Proof.
  revert q. induction w1 as [|a w1 IH]; intros q; [done|].
  simpl. case_bool_decide; [|done].
  destruct (transition self q a) as [q'|]; [apply IH|done].
Qed.

(** The loop of [derivation] follows the loop of [final_state]: it stops
    with the same exception, or it appends one step for each symbol and
    the last step appended leads to the final state. *)
Lemma derivation_loop_final_state acc q w :
  match final_state self q w with
  | Ok qf =>
      ∃ tr, derivation_loop self acc q w = Ok (acc ++ tr)
            ∧ length tr = length w ∧ last_target q tr = qf
  | Raise e => derivation_loop self acc q w = Raise e
  end.
Proof.
  revert acc q. induction w as [|a w IH]; intros acc q; simpl.
  - exists []. by rewrite app_nil_r.
  - case_bool_decide; [|done].
    destruct (transition self q a) as [q'|]; [|done].
    specialize (IH (acc ++ [(q, a, q')]) q').
    destruct (final_state self q' w) as [qf|e]; [|done].
    destruct IH as (tr & -> & Hlen & Hlast).
    exists ((q, a, q') :: tr). rewrite <- app_assoc. simpl.
    split_and!; [done|by rewrite Hlen|].
    unfold last_target in *. destruct tr as [|t tr]; [done|].
    rewrite last_cons_cons.
    destruct (last (t :: tr)) as [[[??]?]|] eqn:Hl; [done|].
    by apply last_None in Hl.
Qed.

Lemma derivation_final_state q w :
  match final_state self q w with
  | Ok qf =>
      ∃ tr, derivation self q w = Ok tr
            ∧ length tr = length w ∧ last_target q tr = qf
  | Raise e => derivation self q w = Raise e
  end.
Proof. apply (derivation_loop_final_state [] q w). Qed.

(** A run that fails, fails at its first faulty symbol: the prefix before
    it is read without error, and the exception tells the fault. *)
Lemma final_state_Raise_inv q w e :
  final_state self q w = Raise e →
  ∃ pre a post q',
    w = pre ++ (a :: post) ∧ final_state self q pre = Ok q'
    ∧ (((a ∉ Sigma self) ∧ e = SymbolNotInAlphabet a)
       ∨ (a ∈ Sigma self ∧ delta self !! (q', a) = None
          ∧ e = UndefinedTransition q' a)).
Proof.
  revert q. induction w as [|a w IH]; intros q; simpl; [done|].
  case_bool_decide as Ha.
  - destruct (transition self q a) as [q'|] eqn:Ht.
    + intros (pre & b & post & q'' & -> & Hpre & Hb)%IH.
      exists (a :: pre), b, post, q''. split_and!; [done| |done].
      by rewrite final_state_cons_in, Ht.
    + intros [= <-]. exists [], a, w, q. naive_solver.
  - intros [= <-]. exists [], a, w, q. naive_solver.
Qed.

(** The run on a fully defined path succeeds. *)
Lemma final_state_defined q w :
  Forall (λ a, a ∈ Sigma self) w →
  path_defined (delta self) q w = true →
  ∃ qf, final_state self q w = Ok qf.
Proof.
  revert q. induction w as [|a w IH]; intros q Hw Hp; [by eexists|].
  apply Forall_cons in Hw as [Ha Hw]. simpl in Hp.
  rewrite final_state_cons_in by done. unfold transition.
  destruct (delta self !! (q, a)) as [q'|]; [by apply IH|done].
Qed.
End Loops.

(** ** Acceptance *)

(** C1. [accepted(q, w, F)] returns [True] exactly when [final_state(q, w)]
    returns a state that is in the accepting set in effect (the argument [F]
    when it is given, [self.F] otherwise), and it returns [False], raising
    nothing, whenever [final_state(q, w)] raises. *)
Theorem accepted_iff_final_state_in_F (self : AFD) (q : string)
    (w : list string) (F_arg : option (list string)) :
  (accepted self q w F_arg = true
   ↔ ∃ qf, final_state self q w = Ok qf ∧ qf ∈ active_F self F_arg)
  ∧ (∀ e, final_state self q w = Raise e → accepted self q w F_arg = false).
Proof.
  unfold accepted, active_F. split.
  - destruct (final_state self q w) as [qf|e].
    + rewrite bool_decide_eq_true. split.
      * intros Hin. exists qf. by destruct F_arg.
      * intros (qf' & [= <-] & Hin). by destruct F_arg.
    + split; [done|]. by intros (qf & ? & _).
  - by intros e ->.
Qed.

(** ** Final state and derivation *)

(** C2. When every symbol of [w] is in the alphabet and the path of [w]
    from [q0] is defined in the table, [final_state(q0, w)] returns, and the
    state it returns is the third component of the last step of
    [derivation(q0, w)], and is [q0] when [w] is empty. *)
Theorem final_state_last_of_derivation (self : AFD) (q0 : string)
    (w : list string) :
  Forall (λ a, a ∈ Sigma self) w →
  path_defined (delta self) q0 w = true →
  ∃ qf tr,
    final_state self q0 w = Ok qf ∧ derivation self q0 w = Ok tr
    ∧ match last tr with
      | Some (_, _, q') => qf = q'
      | None => w = [] ∧ qf = q0
      end
    ∧ (w = [] → qf = q0).
Proof.
  intros Hw Hp. destruct (final_state_defined self q0 w Hw Hp) as [qf Hqf].
  pose proof (derivation_final_state self q0 w) as Hd. rewrite Hqf in Hd.
  destruct Hd as (tr & Hd & Hlen & Hlast). exists qf, tr.
  split_and!; [done..| |].
  - unfold last_target in Hlast.
    destruct (last tr) as [[[??]?]|] eqn:Hl; [done|].
    apply last_None in Hl as ->. by destruct w.
  - intros ->. by injection Hqf.
Qed.

Lemma final_state_last_of_derivation_witness :
  ∃ self qf tr,
    afd1 = Ok self
    ∧ final_state self "q0" (chars "101") = Ok qf
    ∧ derivation self "q0" (chars "101") = Ok tr
    ∧ last tr = Some ("q1", "1", "q2") ∧ qf = "q2".
Proof.
  exists afd1_object.
  destruct (final_state_last_of_derivation afd1_object "q0" (chars "101"))
    as (qf & tr & Hf & Hd & Hl & _).
  - simpl. repeat constructor; compute_done.
  - vm_compute. reflexivity.
  - exists qf, tr. split; [reflexivity|]. split; [exact Hf|].
    split; [exact Hd|].
    assert (tr = [("q0", "1", "q0"); ("q0", "0", "q1"); ("q1", "1", "q2")])
      as -> by (vm_compute in Hd; congruence).
    simpl in Hl. subst qf. split; reflexivity.
Defined.

(** C3. [derivation(q, w)] and [final_state(q, w)] return or raise
    together; when they raise, they raise the same exception, at the same
    symbol of [w]: both read the prefix before it without error and both
    raise on the prefix that ends with it; and a call of [derivation] that
    raises returns no trace. *)
Theorem derivation_fails_as_final_state (self : AFD) (q : string)
    (w : list string) :
  (∀ e, derivation self q w = Raise e ↔ final_state self q w = Raise e)
  ∧ ((∃ tr, derivation self q w = Ok tr) ↔ (∃ qf, final_state self q w = Ok qf))
  ∧ (∀ e, derivation self q w = Raise e →
       (∀ tr, derivation self q w ≠ Ok tr)
       ∧ ((∃ a, e = SymbolNotInAlphabet a) ∨ (∃ s a, e = UndefinedTransition s a))
       ∧ ∃ pre a post,
           w = pre ++ (a :: post)
           ∧ (∃ q', final_state self q pre = Ok q')
           ∧ (∃ tr, derivation self q pre = Ok tr)
           ∧ final_state self q (pre ++ [a]) = Raise e
           ∧ derivation self q (pre ++ [a]) = Raise e).
Proof.
  pose proof (derivation_final_state self q w) as Hd.
  assert (∀ e, derivation self q w = Raise e ↔ final_state self q w = Raise e)
    as Hiff.
  { intros e. destruct (final_state self q w) as [qf|e'].
    - destruct Hd as (tr & -> & _). split; discriminate.
    - rewrite Hd. split; by intros [= ->]. }
  split_and!; [done| |].
  - destruct (final_state self q w) as [qf|e'].
    + destruct Hd as (tr & -> & _). split; eauto.
    + rewrite Hd. split; intros [? [=]].
  - intros e He. split; [congruence|].
    apply Hiff in He. apply final_state_Raise_inv in He
      as (pre & a & post & q' & -> & Hpre & Hfault).
    split.
    { destruct Hfault as [[_ ->]|(_ & _ & ->)]; eauto. }
    assert (final_state self q (pre ++ [a]) = Raise e) as Hf.
    { rewrite final_state_app, Hpre. simpl.
      destruct Hfault as [[Ha ->]|(Ha & Ht & ->)].
      - by rewrite bool_decide_eq_false_2.
      - rewrite bool_decide_eq_true_2 by done. unfold transition. by rewrite Ht. }
    exists pre, a, post. split_and!; [done|by eexists| |done|].
    + pose proof (derivation_final_state self q pre) as Hd'.
      rewrite Hpre in Hd'. destruct Hd' as (tr & ? & _). by exists tr.
    + pose proof (derivation_final_state self q (pre ++ [a])) as Hd'.
      by rewrite Hf in Hd'.
Qed.

Lemma derivation_fails_as_final_state_witness :
  ∃ self,
    afd1 = Ok self
    ∧ derivation self "q0" (chars "0121") = Raise (SymbolNotInAlphabet "2")
    ∧ final_state self "q0" (chars "0121") = Raise (SymbolNotInAlphabet "2")
    ∧ final_state self "q0" (chars "01") = Ok "q2"
    ∧ final_state self "q0" (chars "012") = Raise (SymbolNotInAlphabet "2").
Proof.
  exists afd1_object. split; [reflexivity|].
  destruct (derivation_fails_as_final_state afd1_object "q0" (chars "0121"))
    as (Hiff & _ & _).
  split; [apply Hiff|]; repeat split; vm_compute; reflexivity.
Defined.

(** C4. In [final_state] and in [derivation] each symbol is looked for in
    the alphabet before the table is consulted: at the first symbol [a] that
    is not in [Sigma] both raise [SymbolNotInAlphabet], whatever the table
    holds for the current state and [a]; they raise [UndefinedTransition]
    only at a symbol that is in [Sigma] and for which the table has no entry
    from the current state.  The first fault decides the outcome: the
    symbols after it are not read. *)
Theorem symbol_checked_before_table (self : AFD) (q : string)
    (w : list string) :
  (∀ pre a post q',
     w = pre ++ (a :: post) → final_state self q pre = Ok q' →
     a ∉ Sigma self →
     final_state self q w = Raise (SymbolNotInAlphabet a)
     ∧ derivation self q w = Raise (SymbolNotInAlphabet a))
  ∧ (∀ pre a post q',
       w = pre ++ (a :: post) → final_state self q pre = Ok q' →
       a ∈ Sigma self → delta self !! (q', a) = None →
       final_state self q w = Raise (UndefinedTransition q' a)
       ∧ derivation self q w = Raise (UndefinedTransition q' a))
  ∧ (∀ s a,
       final_state self q w = Raise (UndefinedTransition s a)
       ∨ derivation self q w = Raise (UndefinedTransition s a) →
       ∃ pre post,
         w = pre ++ (a :: post) ∧ final_state self q pre = Ok s
         ∧ a ∈ Sigma self ∧ delta self !! (s, a) = None)
  ∧ (∀ a,
       final_state self q w = Raise (SymbolNotInAlphabet a)
       ∨ derivation self q w = Raise (SymbolNotInAlphabet a) →
       ∃ pre post q',
         w = pre ++ (a :: post) ∧ final_state self q pre = Ok q'
         ∧ a ∉ Sigma self).
Proof.
  assert (∀ e, derivation self q w = Raise e → final_state self q w = Raise e)
    as Hdf.
  { intros e He. pose proof (derivation_final_state self q w) as Hd.
    destruct (final_state self q w) as [qf|e'].
    - destruct Hd as (tr & Hd & _). congruence.
    - congruence. }
  assert (∀ e, final_state self q w = Raise e → derivation self q w = Raise e)
    as Hfd.
  { intros e He. pose proof (derivation_final_state self q w) as Hd.
    by rewrite He in Hd. }
  split_and!.
  - intros pre a post q' -> Hpre Ha.
    assert (final_state self q (pre ++ a :: post)
            = Raise (SymbolNotInAlphabet a)) as Hf.
    { rewrite final_state_app, Hpre. by apply final_state_cons_notin. }
    split; [done|by apply Hfd].
  - intros pre a post q' -> Hpre Ha Ht.
    assert (final_state self q (pre ++ a :: post)
            = Raise (UndefinedTransition q' a)) as Hf.
    { rewrite final_state_app, Hpre. simpl.
      rewrite bool_decide_eq_true_2 by done. unfold transition.
      by rewrite Ht. }
    split; [done|by apply Hfd].
  - intros s a He.
    assert (final_state self q w = Raise (UndefinedTransition s a)) as Hf
      by (destruct He; auto).
    apply final_state_Raise_inv in Hf
      as (pre & b & post & q' & -> & Hpre & [[_ [=]]|(Hb & Ht & [= -> ->])]).
    by exists pre, post.
  - intros a He.
    assert (final_state self q w = Raise (SymbolNotInAlphabet a)) as Hf
      by (destruct He; auto).
    apply final_state_Raise_inv in Hf
      as (pre & b & post & q' & -> & Hpre & [[Hb [= ->]]|(_ & _ & [=])]).
    by exists pre, post, q'.
Qed.

Lemma symbol_checked_before_table_witness :
  delta afd_raw_entry !! ("s", "z") = Some "s"
  ∧ final_state afd_raw_entry "s" ["a"; "z"; "b"]
    = Raise (SymbolNotInAlphabet "z")
  ∧ derivation afd_raw_entry "s" ["a"; "z"; "b"]
    = Raise (SymbolNotInAlphabet "z")
  ∧ final_state afd_raw_entry "s" ["a"; "b"; "z"]
    = Raise (UndefinedTransition "s" "b").
Proof.
  split; [reflexivity|].
  destruct (symbol_checked_before_table afd_raw_entry "s" ["a"; "z"; "b"])
    as (Hsym & _).
  destruct (symbol_checked_before_table afd_raw_entry "s" ["a"; "b"; "z"])
    as (_ & Hund & _).
  destruct (Hsym ["a"] "z" ["b"] "s") as [Hf Hd];
    [reflexivity|reflexivity| |].
  { compute_done. }
  destruct (Hund ["a"] "b" ["z"] "s") as [Hf' _];
    [reflexivity|reflexivity| |reflexivity|].
  { compute_done. }
  repeat split; assumption.
Defined.

(** C5. On the empty word [final_state] raises nothing and returns its
    argument [q], whatever the automaton and whether or not [q] is in [Q];
    for the automaton of the second example, [final_state("par", "")] returns
    ["par"]. *)
Theorem final_state_empty :
  (∀ (self : AFD) (q : string), final_state self q [] = Ok q)
  ∧ (∃ self, afd2 = Ok self ∧ final_state self "par" (chars "") = Ok "par").
Proof.
  split; [done|]. eexists. split; reflexivity.
Qed.

(** C6. A trace returned by [derivation(q0, w)] has as many steps as [w]
    has symbols, and on the empty word [derivation] returns the empty
    trace. *)
Theorem derivation_length (self : AFD) (q0 : string) (w : list string) :
  (∀ tr, derivation self q0 w = Ok tr → length tr = length w)
  ∧ derivation self q0 [] = Ok [].
Proof.
  split; [|done]. intros tr Htr.
  pose proof (derivation_final_state self q0 w) as Hd.
  destruct (final_state self q0 w) as [qf|e]; [|congruence].
  destruct Hd as (tr' & Hd & Hlen & _). congruence.
Qed.

Lemma derivation_length_witness :
  ∃ tr, derivation afd1_object "q0" (chars "1101") = Ok tr ∧ length tr = 4.
Proof.
  eexists. split; [reflexivity|].
  apply (proj1 (derivation_length afd1_object "q0" (chars "1101"))).
  reflexivity.
Defined.

(** ** Construction *)

Lemma unpack3_row_of t : unpack3 (row_of t) = Ok t.
Proof. by destruct t as [[??]?]. Qed.

(** On rows that are triples the loop of [__init__] raises nothing and
    performs the assignments in the order of the list. *)
Lemma load_rows_triples ts d :
  load_rows (row_of <$> ts) d = Ok (foldl assign d ts).
Proof.
  revert d. induction ts as [|[[q a] q'] ts IH]; intros d; [done|].
  simpl. apply IH.
Qed.

(** Assignments to other keys leave the entry of a key as it is. *)
Lemma foldl_assign_other ts d k :
  Forall (λ t, key_of t ≠ k) ts → foldl assign d ts !! k = d !! k.
Proof.
  revert d. induction ts as [|t ts IH]; intros d Hts; [done|].
  apply Forall_cons in Hts as [Ht Hts]. simpl. rewrite IH by done.
  unfold assign. by rewrite lookup_insert_ne.
Qed.

(** The entry of a key is the target of the last triple with that key. *)
Lemma foldl_assign_last pre q a q' post d :
  Forall (λ t, key_of t ≠ (q, a)) post →
  foldl assign d (pre ++ (q, a, q') :: post) !! (q, a) = Some q'.
Proof.
  intros Hpost. rewrite foldl_app. simpl.
  rewrite foldl_assign_other by done. unfold assign, key_of. simpl.
  by rewrite lookup_insert_eq.
Qed.

(** C7. [__init__] takes the transitions as a dictionary keyed by pairs
    (state, symbol) or as a list of triples, and stores a dictionary in both
    cases: the object built from the list is the one built from the
    dictionary it stores.  When the list has two triples for the same pair
    (state, symbol), with different targets, the stored entry of the pair is
    the target of the later one (the last for that pair), and that is what
    [transition] returns, and [final_state] on that symbol when it is in the
    alphabet. *)
Theorem init_last_write_wins (Q Sigma : list string) (q0 : string)
    (F : list string) (ts : list (string * string * string)) :
  ∃ self,
    AFD_init Q Sigma q0 F (DeltaList (row_of <$> ts)) = Ok self
    ∧ AFD_init Q Sigma q0 F (DeltaDict (delta self)) = Ok self
    ∧ ∀ pre q a q1 mid q2 post,
        ts = pre ++ (q, a, q1) :: mid ++ (q, a, q2) :: post →
        q1 ≠ q2 →
        Forall (λ t, key_of t ≠ (q, a)) post →
        delta self !! (q, a) = Some q2
        ∧ transition self q a = Some q2
        ∧ (a ∈ Sigma → final_state self q [a] = Ok q2).
Proof.
  exists (mkAFD Q Sigma q0 F (foldl assign ∅ ts)). split_and!.
  - simpl. by rewrite load_rows_triples.
  - done.
  - intros pre q a q1 mid q2 post -> _ Hpost.
    assert (foldl assign ∅ (pre ++ (q, a, q1) :: mid ++ (q, a, q2) :: post)
              !! (q, a) = Some q2) as Hlast.
    { replace (pre ++ (q, a, q1) :: mid ++ (q, a, q2) :: post)
        with ((pre ++ (q, a, q1) :: mid) ++ (q, a, q2) :: post)
        by (by rewrite <- app_assoc).
      by apply foldl_assign_last. }
    split_and!; [done..|].
    intros Ha. rewrite final_state_cons_in by done.
    unfold transition. simpl. by rewrite Hlast.
Qed.

Lemma init_last_write_wins_witness :
  ∃ self,
    AFD_init ["p"; "r"; "s"] ["a"] "p" ["s"]
      (DeltaList [ ["p"; "a"; "r"]; ["r"; "a"; "r"]; ["p"; "a"; "s"] ])
    = Ok self
    ∧ delta self !! ("p", "a") = Some "s"
    ∧ transition self "p" "a" = Some "s"
    ∧ final_state self "p" ["a"] = Ok "s".
Proof.
  destruct (init_last_write_wins ["p"; "r"; "s"] ["a"] "p" ["s"]
              [("p", "a", "r"); ("r", "a", "r"); ("p", "a", "s")])
    as (self & Hinit & _ & Hlast).
  exists self. split; [exact Hinit|].
  destruct (Hlast [] "p" "a" "r" [("r", "a", "r")] "s" [])
    as (Hd & Ht & Hf); [reflexivity|discriminate|constructor|].
  split; [exact Hd|]. split; [exact Ht|].
  apply Hf. compute_done.
Defined.

(** C8. [__init__] raises nothing, for the dictionary shape and for the
    list of triples, and returns an object that holds the components as they
    were given: nothing requires [q0] to be in [Q], [F] to be included in
    [Q], or the states and the symbols of the transitions to be in [Q] and
    in [Sigma]; and on such an object a query that reads no transition
    returns. *)
Theorem init_total (Q Sigma : list string) (q0 : string) (F : list string) :
  (∀ d, ∃ self,
     AFD_init Q Sigma q0 F (DeltaDict d) = Ok self
     ∧ self = mkAFD Q Sigma q0 F d
     ∧ final_state self q0 [] = Ok q0)
  ∧ (∀ ts, ∃ self,
       AFD_init Q Sigma q0 F (DeltaList (row_of <$> ts)) = Ok self
       ∧ self = mkAFD Q Sigma q0 F (foldl assign ∅ ts)
       ∧ final_state self q0 [] = Ok q0).
Proof.
  split.
  - intros d. by eexists.
  - intros ts. eexists. split_and!; [|done..].
    simpl. by rewrite load_rows_triples.
Qed.

Lemma init_total_witness :
  ∃ self,
    AFD_init ["p"] ["a"] "start" ["end"]
      (DeltaList [ ["p"; "z"; "ghost"] ]) = Ok self
    ∧ (q0 self ∉ Q self) ∧ ¬ (F self ⊆ Q self)
    ∧ delta self !! ("p", "z") = Some "ghost".
Proof.
  destruct (init_total ["p"] ["a"] "start" ["end"]) as [_ Hlist].
  destruct (Hlist [("p", "z", "ghost")]) as (self & Hinit & -> & _).
  exists (mkAFD ["p"] ["a"] "start" ["end"]
            (foldl assign ∅ [("p", "z", "ghost")])).
  split; [exact Hinit|]. split; [compute_done|]. split; [|reflexivity].
  intros Hsub. specialize (Hsub "end"). simpl in Hsub.
  assert ("end" ∈ ["p"]) as Hin by (apply Hsub; compute_done).
  revert Hin. compute_done.
Defined.

(** ** The declared states *)

(** The runs read only the alphabet and the table of the object. *)
Lemma final_state_reads (A B : AFD) q w :
  Sigma A = Sigma B → delta A = delta B →
  final_state A q w = final_state B q w.
Proof.
  intros HS Hd. revert q. induction w as [|a w IH]; intros q; [done|].
  simpl. unfold transition. rewrite HS, Hd.
  case_bool_decide; [|done]. destruct (delta B !! (q, a)); [apply IH|done].
Qed.

Lemma derivation_loop_reads (A B : AFD) acc q w :
  Sigma A = Sigma B → delta A = delta B →
  derivation_loop A acc q w = derivation_loop B acc q w.
Proof.
  intros HS Hd. revert acc q. induction w as [|a w IH]; intros acc q; [done|].
  simpl. unfold transition. rewrite HS, Hd.
  case_bool_decide; [|done]. destruct (delta B !! (q, a)); [apply IH|done].
Qed.

(** C10. The queries do not read [Q]: [final_state], [derivation] and
    [accepted] return the same on the automaton with any other list of
    states; and a run of which every symbol is in the alphabet and every
    step has an entry in the table returns, whether or not its states are
    in [Q]. *)
Theorem queries_ignore_Q (self : AFD) (Q' : list string) (q : string)
    (w : list string) (F_arg : option (list string)) :
  let other := mkAFD Q' (Sigma self) (q0 self) (F self) (delta self) in
  final_state other q w = final_state self q w
  ∧ derivation other q w = derivation self q w
  ∧ accepted other q w F_arg = accepted self q w F_arg
  ∧ (Forall (λ a, a ∈ Sigma self) w →
     path_defined (delta self) q w = true →
     ∃ qf tr,
       final_state other q w = Ok qf ∧ derivation other q w = Ok tr
       ∧ accepted other q w F_arg = bool_decide (qf ∈ active_F self F_arg)).
Proof.
  intros other.
  assert (final_state other q w = final_state self q w) as Hf
    by (by apply final_state_reads).
  assert (derivation other q w = derivation self q w) as Hd
    by (by apply derivation_loop_reads).
  assert (accepted other q w F_arg = accepted self q w F_arg) as Ha.
  { unfold accepted. by rewrite Hf. }
  split_and!; [done..|].
  intros Hw Hp. destruct (final_state_defined self q w Hw Hp) as [qf Hqf].
  pose proof (derivation_final_state self q w) as Hdf. rewrite Hqf in Hdf.
  destruct Hdf as (tr & Htr & _). exists qf, tr.
  split_and!; [by rewrite Hf|by rewrite Hd|].
  rewrite Ha. unfold accepted, active_F. rewrite Hqf. by destruct F_arg.
Qed.

Lemma queries_ignore_Q_witness :
  Q afd_no_states = []
  ∧ final_state afd_no_states "p" ["a"; "a"; "a"] = Ok "r"
  ∧ derivation afd_no_states "p" ["a"; "a"; "a"]
    = Ok [("p", "a", "r"); ("r", "a", "p"); ("p", "a", "r")]
  ∧ accepted afd_no_states "p" ["a"; "a"; "a"] None = true.
Proof.
  split; [reflexivity|].
  destruct (queries_ignore_Q afd_no_states [] "p" ["a"; "a"; "a"] None)
    as (_ & _ & _ & Hrun).
  destruct Hrun as (qf & tr & Hf & Hd & Ha).
  - repeat constructor.
  - reflexivity.
  - change (mkAFD [] (Sigma afd_no_states) (q0 afd_no_states)
              (F afd_no_states) (delta afd_no_states))
      with afd_no_states in Hf, Hd, Ha.
    assert (qf = "r") as -> by (vm_compute in Hf; congruence).
    assert (tr = [("p", "a", "r"); ("r", "a", "p"); ("p", "a", "r")]) as ->
      by (vm_compute in Hd; congruence).
    repeat split; assumption.
Defined.

(** * Properties of the methods on the store *)

Module StoreFacts.
Import Store.

(** ** Calls that do not write *)

Lemma read_only_ret {A : Type} (x : A) : read_only (ret x).
Proof. by intros h. Qed.

Lemma read_only_raise {A : Type} (e : exn) : read_only (raise (A := A) e).
Proof. by intros h. Qed.

Lemma read_only_bind {A B : Type} (m : M A) (k : A → M B) :
  read_only m → (∀ x, read_only (k x)) → read_only (m ≫= k).
Proof.
  intros Hm Hk h. unfold mbind, M_bind. specialize (Hm h).
  destruct (m h) as [[x|e] h']; simpl in *; subst h'; [apply Hk|done].
Qed.

Lemma read_only_try {A : Type} (m handler : M A) :
  read_only m → read_only handler →
  read_only (try_except_ValueError m handler).
Proof.
  intros Hm Hh h. unfold try_except_ValueError. specialize (Hm h).
  destruct (m h) as [[x|[e|]] h']; simpl in *; subst h'; [done|apply Hh|done].
Qed.

Lemma read_only_attr_Sigma self : read_only (attr_Sigma self).
Proof.
  intros h. unfold attr_Sigma. by destruct (h !! self) as [[]|].
Qed.

Lemma read_only_attr_F self : read_only (attr_F self).
Proof.
  intros h. unfold attr_F. by destruct (h !! self) as [[]|].
Qed.

Lemma read_only_attr_delta self : read_only (attr_delta self).
Proof.
  intros h. unfold attr_delta. by destruct (h !! self) as [[]|].
Qed.

Lemma read_only_contains l x : read_only (contains l x).
Proof.
  intros h. unfold contains. by destruct (h !! l) as [[]|].
Qed.

Lemma read_only_dict_get l k : read_only (dict_get l k).
Proof.
  intros h. unfold dict_get. by destruct (h !! l) as [[]|].
Qed.

Create HintDb read_only.
#[local] Hint Resolve read_only_ret read_only_raise read_only_attr_Sigma
  read_only_attr_F read_only_attr_delta read_only_contains
  read_only_dict_get : read_only.

Lemma read_only_transition self q a : read_only (transition self q a).
Proof.
  unfold transition. apply read_only_bind; auto with read_only.
Qed.

Lemma read_only_final_state self q w : read_only (final_state self q w).
Proof.
  revert q. induction w as [|symbol w IH]; intros q; simpl;
    [auto with read_only|].
  apply read_only_bind; [auto with read_only|]. intros Sigma.
  apply read_only_bind; [auto with read_only|]. intros [|];
    [|auto with read_only].
  apply read_only_bind; [apply read_only_transition|].
  intros [next_state|]; [apply IH|auto with read_only].
Qed.

Lemma read_only_accepted self q w F_arg :
  read_only (accepted self q w F_arg).
Proof.
  unfold accepted. apply read_only_bind.
  - destruct F_arg; auto with read_only.
  - intros F. apply read_only_try; [|auto with read_only].
    apply read_only_bind; [apply read_only_final_state|].
    auto with read_only.
Qed.

(** ** The list of [derivation] *)

(** Appending to the list allocated last writes past the objects that were
    in the store before the allocation. *)
Lemma append_last h items t :
  append (length h) t (h ++ [StepList items])
  = (Returns (), h ++ [StepList (items ++ [t])]).
Proof.
  unfold append. rewrite lookup_app_r, Nat.sub_diag by done. simpl.
  f_equal. rewrite insert_app_r_alt, Nat.sub_diag by done. done.
Qed.

(** The loop of [derivation] writes to its own list only. *)
Lemma derivation_loop_frame self h items q w :
  ∃ items',
    (derivation_loop self (length h) q w (h ++ [StepList items])).2
    = h ++ [StepList items'].
Proof.
  revert items q. induction w as [|symbol w IH]; intros items q; simpl.
  { by exists items. }
  unfold mbind, M_bind.
  pose proof (read_only_attr_Sigma self (h ++ [StepList items])) as HS.
  destruct (attr_Sigma self _) as [[Sigma|e] h1]; simpl in HS; subst h1;
    [|by exists items].
  pose proof (read_only_contains Sigma symbol (h ++ [StepList items])) as HC.
  destruct (contains Sigma symbol _) as [[[|]|e] h1]; simpl in HC; subst h1;
    [|by exists items..].
  pose proof (read_only_transition self q symbol (h ++ [StepList items]))
    as HT.
  destruct (transition self q symbol _) as [[[next_state|]|e] h1];
    simpl in HT; subst h1; [|by exists items..].
  rewrite append_last. apply IH.
Qed.

(** ** The store and the functional methods *)

Lemma read_AFD_inv h self A :
  read_AFD h self = Some A →
  ∃ lQ lSigma lF ldelta,
    h !! self = Some (Instance lQ lSigma (q0 A) lF ldelta)
    ∧ h !! lQ = Some (LabelList (Q A))
    ∧ h !! lSigma = Some (LabelList (Sigma A))
    ∧ h !! lF = Some (LabelList (F A))
    ∧ h !! ldelta = Some (Dict (delta A)).
Proof.
  unfold read_AFD. intros HA.
  destruct (h !! self) as [[| | |lQ lSigma q lF ldelta]|]; try done.
  exists lQ, lSigma, lF, ldelta.
  destruct (h !! lQ) as [[Q| | |]|]; try done.
  destruct (h !! lSigma) as [[Sigma| | |]|]; try done.
  destruct (h !! lF) as [[F| | |]|]; try done.
  destruct (h !! ldelta) as [[|d| |]|]; try done.
  by injection HA as <-.
Qed.

(** An object that is in the store is still there after an allocation. *)
Lemma lookup_alloc (h : store) (o o' : object) (l : loc) :
  h !! l = Some o → (h ++ [o']) !! l = Some o.
Proof. apply lookup_app_l_Some. Qed.

Lemma read_AFD_alloc h self items A :
  read_AFD h self = Some A → read_AFD (h ++ [StepList items]) self = Some A.
Proof.
  intros (lQ & lSigma & lF & ldelta & Hs & HQ & HS & HF & Hd)%read_AFD_inv.
  unfold read_AFD.
  rewrite (lookup_alloc _ _ _ _ Hs), (lookup_alloc _ _ _ _ HQ),
    (lookup_alloc _ _ _ _ HS), (lookup_alloc _ _ _ _ HF),
    (lookup_alloc _ _ _ _ Hd).
  by destruct A.
Qed.

Lemma transition_refines h self A q a :
  read_AFD h self = Some A →
  transition self q a h = (Returns (run_transition A q a), h).
Proof.
  intros (lQ & lSigma & lF & ldelta & Hs & HQ & HS & HF & Hd)%read_AFD_inv.
  unfold transition, mbind, M_bind, attr_delta, dict_get.
  by rewrite Hs, Hd.
Qed.

(** One turn of the loops: the test of the symbol and the lookup. *)
Lemma contains_Sigma_refines h self A symbol :
  read_AFD h self = Some A →
  (Sigma ← attr_Sigma self ; contains Sigma symbol) h
  = (Returns (bool_decide (symbol ∈ Sigma A)), h).
Proof.
  intros (lQ & lSigma & lF & ldelta & Hs & HQ & HS & HF & Hd)%read_AFD_inv.
  unfold mbind, M_bind, attr_Sigma, contains. by rewrite Hs, HS.
Qed.

Lemma final_state_refines h self A q w :
  read_AFD h self = Some A →
  final_state self q w h = (of_result (run_final_state A q w), h).
Proof.
  intros HA. revert q. induction w as [|symbol w IH]; intros q; [done|].
  pose proof (contains_Sigma_refines h self A symbol HA) as HC.
  simpl. unfold mbind, M_bind in *.
  destruct (attr_Sigma self h) as [[Sigma|e] h1]; [|done].
  rewrite HC. case_bool_decide; [|done].
  rewrite (transition_refines h self A) by done.
  destruct (run_transition A q symbol) as [next_state|]; [apply IH|done].
Qed.

Lemma derivation_loop_refines h self A items q w :
  read_AFD h self = Some A →
  ∃ items',
    derivation_loop self (length h) q w (h ++ [StepList items])
    = (match run_derivation_loop A items q w with
       | Ok _ => Returns ()
       | Raise e => Raises (EValueError e)
       end, h ++ [StepList items'])
    ∧ ∀ tr, run_derivation_loop A items q w = Ok tr → items' = tr.
Proof.
  intros HA. revert items q.
  induction w as [|symbol w IH]; intros items q; simpl.
  { exists items. split; [done|]. by intros tr [= <-]. }
  pose proof (contains_Sigma_refines _ self A symbol
                (read_AFD_alloc h self items A HA)) as HC.
  unfold mbind, M_bind in *.
  destruct (attr_Sigma self _) as [[Sigma|e] h1]; [|done].
  rewrite HC. case_bool_decide; [|by exists items].
  rewrite (transition_refines _ self A) by by apply read_AFD_alloc.
  destruct (run_transition A q symbol) as [next_state|]; [|by exists items].
  rewrite append_last. apply IH.
Qed.

Lemma derivation_refines h self A q w :
  read_AFD h self = Some A →
  ∃ items',
    derivation self q w h
    = (match run_derivation A q w with
       | Ok _ => Returns (length h)
       | Raise e => Raises (EValueError e)
       end, h ++ [StepList items'])
    ∧ ∀ tr, run_derivation A q w = Ok tr → items' = tr.
Proof.
  intros HA.
  destruct (derivation_loop_refines h self A [] q w HA) as (items' & Hl & Htr).
  exists items'. split; [|done].
  unfold derivation, mbind, M_bind, new_list. rewrite Hl.
  unfold run_derivation. by destruct (run_derivation_loop A [] q w).
Qed.

Lemma accepted_refines h self A q w F_arg :
  read_AFD h self = Some A →
  match F_arg with
  | None => accepted self q w None h = (Returns (run_accepted A q w None), h)
  | Some lF =>
      ∀ F', h !! lF = Some (LabelList F') →
      accepted self q w (Some lF) h
      = (Returns (run_accepted A q w (Some F')), h)
  end.
Proof.
  intros HA.
  pose proof (final_state_refines h self A q w HA) as Hf.
  destruct (read_AFD_inv h self A HA)
    as (lQ & lSigma & lF & ldelta & Hs & HQ & HS & HF & Hd).
  unfold accepted, run_accepted, try_except_ValueError, mbind, M_bind,
    attr_F, ret, contains.
  destruct F_arg as [lF'|].
  - intros F' HF'. rewrite Hf.
    destruct (run_final_state A q w) as [qf|e]; simpl; [|done].
    by rewrite HF'.
  - rewrite Hs, Hf.
    destruct (run_final_state A q w) as [qf|e]; simpl; [|done].
    by rewrite HF.
Qed.

(** ** The queries do not write to the automaton *)

(** C9. No query writes to the automaton: [transition], [final_state] and
    [accepted], with or without the argument [F], leave the store as it is,
    and [derivation] only adds to it the list it returns; so the instance
    and its components [Q], [Sigma], [q0], [F] and [delta] are after the
    call what they were before it, whether the call returns or raises. *)
Theorem queries_do_not_mutate (h : store) (self : loc) (q a : string)
    (w : list string) (F_arg : option loc) :
  (transition self q a h).2 = h
  ∧ (final_state self q w h).2 = h
  ∧ (accepted self q w F_arg h).2 = h
  ∧ (∃ steps, (derivation self q w h).2 = h ++ [StepList steps])
  ∧ ∀ h',
      h' ∈ [ (transition self q a h).2; (final_state self q w h).2;
             (accepted self q w F_arg h).2; (derivation self q w h).2 ] →
      (∀ l o, h !! l = Some o → h' !! l = Some o)
      ∧ (∀ A, read_AFD h self = Some A → read_AFD h' self = Some A).
Proof.
  assert (∃ steps, (derivation self q w h).2 = h ++ [StepList steps]) as Hd.
  { unfold derivation, mbind, M_bind, new_list.
    destruct (derivation_loop_frame self h [] q w) as [steps Hsteps].
    exists steps.
    by destruct (derivation_loop self (length h) q w (h ++ [StepList []]))
      as [[[]|e] h1]. }
  split_and!;
    [apply read_only_transition|apply read_only_final_state
    |apply read_only_accepted|done|].
  intros h'. rewrite !elem_of_cons, elem_of_nil.
  rewrite read_only_transition, read_only_final_state, read_only_accepted.
  destruct Hd as [steps ->].
  intros [->|[->|[->|[->|[]]]]]; try done.
  split; [intros l o; apply lookup_alloc|intros A; apply read_AFD_alloc].
Qed.

Lemma queries_do_not_mutate_witness :
  read_AFD store_afd1 4 = Some afd1_object
  ∧ (derivation 4 "q0" (chars "012") store_afd1).1
    = Raises (EValueError (SymbolNotInAlphabet "2"))
  ∧ read_AFD (derivation 4 "q0" (chars "012") store_afd1).2 4
    = Some afd1_object
  ∧ (accepted 4 "q0" (chars "012") (Some 0) store_afd1).2 = store_afd1.
Proof.
  destruct (queries_do_not_mutate store_afd1 4 "q0" "0" (chars "012") (Some 0))
    as (_ & _ & Hacc & _ & Hall).
  split; [reflexivity|]. split; [reflexivity|]. split; [|exact Hacc].
  apply (Hall (derivation 4 "q0" (chars "012") store_afd1).2);
    [|reflexivity].
  do 3 apply list_elem_of_further. apply list_elem_of_here.
Defined.
End StoreFacts.

(** * Further properties of the runs *)

Section Runs.
Variable self : AFD.

(** The loop of [derivation] started on a list returns that list followed
    by the trace of the call. *)
Lemma derivation_loop_acc acc q w :
  derivation_loop self acc q w
  = (tr ← derivation self q w; Ok (acc ++ tr)).
Proof.
  unfold derivation. revert acc q.
  induction w as [|a w IH]; intros acc q; simpl.
  { by rewrite app_nil_r. }
  case_bool_decide; [|done].
  destruct (transition self q a) as [q'|]; [|done].
  rewrite (IH (acc ++ [(q, a, q')])), (IH [(q, a, q')]).
  destruct (derivation_loop self [] q' w) as [tr|e]; simpl; [|done].
  by rewrite <- app_assoc.
Qed.

Lemma derivation_cons q a w :
  derivation self q (a :: w)
  = if bool_decide (a ∈ Sigma self) then
      match delta self !! (q, a) with
      | Some q' => tr ← derivation self q' w; Ok ((q, a, q') :: tr)
      | None => Raise (UndefinedTransition q a)
      end
    else Raise (SymbolNotInAlphabet a).
Proof.
  unfold derivation at 1. simpl. unfold transition.
  case_bool_decide; [|done].
  destruct (delta self !! (q, a)) as [q'|]; [|done].
  by rewrite derivation_loop_acc.
Qed.

(** A returned trace is a valid run that reads the word. *)
Lemma derivation_Ok_valid q w tr :
  derivation self q w = Ok tr → word_of tr = w ∧ valid_run self q tr.
Proof.
  revert q tr. induction w as [|a w IH]; intros q tr.
  { by intros [= <-]. }
  rewrite derivation_cons. case_bool_decide as Ha; [|done].
  destruct (delta self !! (q, a)) as [q'|] eqn:Ht; [|done].
  destruct (derivation self q' w) as [tr'|e] eqn:Hd; [|done].
  intros [= <-]. destruct (IH q' tr' Hd) as [Hw Hv].
  split; [by rewrite <- Hw|done].
Qed.

(** A valid run is the trace of the word it reads. *)
Lemma valid_run_derivation q tr :
  valid_run self q tr → derivation self q (word_of tr) = Ok tr.
Proof.
  revert q. induction tr as [|[[s a] t] tr IH]; intros q; [done|].
  intros (-> & Ha & Ht & Hv).
  change (word_of ((q, a, t) :: tr)) with (a :: word_of tr).
  rewrite derivation_cons, bool_decide_eq_true_2, Ht by done.
  by rewrite (IH t Hv).
Qed.
End Runs.

(** X1. Reading [w1 ++ w2] from [q] is reading [w1] from [q] and then [w2]
    from the state reached; an exception raised on [w1] is the outcome. *)
Theorem final_state_concat (self : AFD) (q : string) (w1 w2 : list string) :
  final_state self q (w1 ++ w2)
  = match final_state self q w1 with
    | Ok q' => final_state self q' w2
    | Raise e => Raise e
    end.
Proof. apply final_state_app. Qed.

(** X2. The trace of [w1 ++ w2] from [q] is the trace of [w1] from [q]
    followed by the trace of [w2] from the state that [w1] leads to. *)
Theorem derivation_concat (self : AFD) (q : string) (w1 w2 : list string) :
  derivation self q (w1 ++ w2)
  = match derivation self q w1 with
    | Ok tr1 =>
        match derivation self (last_target q tr1) w2 with
        | Ok tr2 => Ok (tr1 ++ tr2)
        | Raise e => Raise e
        end
    | Raise e => Raise e
    end.
Proof.
  revert q. induction w1 as [|a w1 IH]; intros q.
  { simpl. unfold last_target. simpl.
    by destruct (derivation self q w2). }
  rewrite <- app_comm_cons, !derivation_cons.
  case_bool_decide; [|done].
  destruct (delta self !! (q, a)) as [q'|]; [|done].
  rewrite IH. destruct (derivation self q' w1) as [tr1|e]; simpl; [|done].
  assert (last_target q ((q, a, q') :: tr1) = last_target q' tr1) as ->.
  { unfold last_target. destruct tr1 as [|t tr1]; [done|].
    rewrite last_cons_cons.
    destruct (last (t :: tr1)) as [[[??]?]|] eqn:Hl; [done|].
    by apply last_None in Hl. }
  by destruct (derivation self (last_target q' tr1) w2).
Qed.

(** X3. [derivation(q, w)] returns [tr] exactly when [tr] reads [w], starts
    in [q], and each of its steps reads a symbol of the alphabet along an
    entry of the table from the state where the step before it ended. *)
Theorem derivation_iff_valid_run (self : AFD) (q : string)
    (w : list string) (tr : list (string * string * string)) :
  derivation self q w = Ok tr ↔ word_of tr = w ∧ valid_run self q tr.
Proof.
  split; [apply derivation_Ok_valid|].
  intros [<- Hv]. by apply valid_run_derivation.
Qed.

(** X4. An exception is final: when [final_state(q, w)] raises, it raises
    the same exception on every word that begins with [w], and so does
    [derivation]; hence a word is read without error only if each of its
    prefixes is. *)
Theorem failure_stable_under_extension (self : AFD) (q : string)
    (w w' : list string) :
  (∀ e, final_state self q w = Raise e →
        final_state self q (w ++ w') = Raise e
        ∧ derivation self q (w ++ w') = Raise e)
  ∧ (∀ qf, final_state self q (w ++ w') = Ok qf →
           ∃ q', final_state self q w = Ok q'
                 ∧ final_state self q' w' = Ok qf).
Proof.
  split.
  - intros e He.
    assert (final_state self q (w ++ w') = Raise e) as Hf
      by (by rewrite final_state_app, He).
    split; [done|].
    pose proof (derivation_final_state self q (w ++ w')) as Hd.
    by rewrite Hf in Hd.
  - intros qf. rewrite final_state_app.
    destruct (final_state self q w) as [q'|e]; [|done].
    intros Hqf. by exists q'.
Qed.

Lemma failure_stable_under_extension_witness :
  final_state afd1_object "q0" (chars "12") = Raise (SymbolNotInAlphabet "2")
  ∧ final_state afd1_object "q0" (chars "12" ++ chars "01")
    = Raise (SymbolNotInAlphabet "2")
  ∧ derivation afd1_object "q0" (chars "12" ++ chars "01")
    = Raise (SymbolNotInAlphabet "2").
Proof.
  split; [reflexivity|].
  apply (proj1 (failure_stable_under_extension afd1_object "q0"
                  (chars "12") (chars "01"))).
  reflexivity.
Defined.

(** ** Automata whose table stays within the declared states *)

Lemma final_state_in_Q (self : AFD) q w qf :
  targets_in_Q self → q ∈ Q self →
  final_state self q w = Ok qf → qf ∈ Q self.
Proof.
  intros Hcl. revert q. induction w as [|a w IH]; intros q Hq; simpl.
  { by intros [= <-]. }
  case_bool_decide; [|done]. unfold transition.
  destruct (delta self !! (q, a)) as [q'|] eqn:Ht; [|done].
  apply IH. by apply (Hcl (q, a)).
Qed.

Lemma valid_run_in_Q (self : AFD) q tr :
  targets_in_Q self → q ∈ Q self → valid_run self q tr →
  Forall (λ t, t.1.1 ∈ Q self ∧ t.2 ∈ Q self) tr.
Proof.
  intros Hcl. revert q. induction tr as [|[[s a] t] tr IH]; intros q Hq.
  { constructor. }
  intros (-> & Ha & Ht & Hv).
  assert (t ∈ Q self) as Hin by (by apply (Hcl (q, a))).
  constructor; [done|]. by apply (IH t).
Qed.

(** X5. When every target of the table is a declared state, a run that
    starts in a declared state stays within the declared states: the state
    that [final_state] returns is in [Q], and so are the two states of each
    step of the trace that [derivation] returns. *)
Theorem runs_stay_in_Q (self : AFD) (q : string) (w : list string) :
  targets_in_Q self → q ∈ Q self →
  (∀ qf, final_state self q w = Ok qf → qf ∈ Q self)
  ∧ (∀ tr, derivation self q w = Ok tr →
           Forall (λ t, t.1.1 ∈ Q self ∧ t.2 ∈ Q self) tr).
Proof.
  intros Hcl Hq. split.
  - intros qf. by apply final_state_in_Q.
  - intros tr [_ Hv]%derivation_Ok_valid. by apply (valid_run_in_Q self q).
Qed.

Lemma targets_in_Q_afd1 : targets_in_Q afd1_object.
Proof.
  unfold targets_in_Q, afd1_object. simpl.
  repeat (apply map_Forall_insert_2; [compute_done|]).
  apply map_Forall_empty.
Qed.

Lemma runs_stay_in_Q_witness :
  ∃ qf, final_state afd1_object "q2" (chars "0110") = Ok qf
        ∧ qf ∈ Q afd1_object.
Proof.
  exists "q1". split; [reflexivity|].
  apply (proj1 (runs_stay_in_Q afd1_object "q2" (chars "0110")
                  targets_in_Q_afd1 ltac:(compute_done))).
  reflexivity.
Defined.

(** X6. When moreover the table has an entry for each declared state and
    each symbol of the alphabet, a run from a declared state never raises
    [UndefinedTransition]: it returns exactly when every symbol of the word
    is in the alphabet. *)
Theorem complete_never_undefined (self : AFD) (q : string)
    (w : list string) :
  targets_in_Q self → complete self → q ∈ Q self →
  ((∃ qf, final_state self q w = Ok qf) ↔ Forall (λ a, a ∈ Sigma self) w)
  ∧ (∀ s a, final_state self q w ≠ Raise (UndefinedTransition s a))
  ∧ (∀ s a, derivation self q w ≠ Raise (UndefinedTransition s a)).
Proof.
  intros Hcl Hco Hq.
  assert (∀ s a, final_state self q w ≠ Raise (UndefinedTransition s a))
    as Hnever.
  { intros s a He. apply final_state_Raise_inv in He
      as (pre & b & post & q' & -> & Hpre & [[_ [=]]|(Hb & Ht & _)]).
    assert (q' ∈ Q self) as Hq' by (by apply (final_state_in_Q self q pre)).
    unfold complete in Hco. rewrite Forall_forall in Hco.
    specialize (Hco q' Hq'). rewrite Forall_forall in Hco.
    destruct (Hco b Hb) as [t Hsome]. congruence. }
  split_and!; [|done|].
  - split.
    + intros [qf Hqf]. apply Forall_forall. intros a Ha.
      apply list_elem_of_split in Ha as (pre & post & ->).
      destruct (decide (a ∈ Sigma self)) as [|Hnot]; [done|].
      rewrite final_state_app in Hqf.
      destruct (final_state self q pre) as [q'|e]; [|done].
      simpl in Hqf. by rewrite bool_decide_eq_false_2 in Hqf.
    + intros Hw. destruct (final_state self q w) as [qf|e] eqn:He;
        [by eexists|].
      exfalso. pose proof He as He'.
      apply final_state_Raise_inv in He'
        as (pre & b & post & q' & -> & Hpre & [[Hb _]|(_ & _ & ->)]).
      * by apply Forall_app in Hw as [_ [Hb' _]%Forall_cons].
      * by destruct (Hnever q' b).
  - intros s a He. apply (Hnever s a).
    pose proof (derivation_final_state self q w) as Hd.
    destruct (final_state self q w) as [qf|e].
    + destruct Hd as (tr & Hd & _). congruence.
    + congruence.
Qed.

Lemma complete_never_undefined_witness :
  (∃ qf, final_state afd1_object "q1" (chars "0101") = Ok qf)
  ∧ ¬ (∃ qf, final_state afd1_object "q1" (chars "0121") = Ok qf).
Proof.
  assert (complete afd1_object) as Hco by compute_done.
  assert ("q1" ∈ Q afd1_object) as Hq by compute_done.
  split.
  - apply (proj1 (complete_never_undefined afd1_object "q1" (chars "0101")
                    targets_in_Q_afd1 Hco Hq)).
    compute_done.
  - intros Hex.
    apply (proj1 (complete_never_undefined afd1_object "q1" (chars "0121")
                    targets_in_Q_afd1 Hco Hq)) in Hex.
    revert Hex. compute_done.
Defined.

(** ** The accepting set of a call *)

(** X7. With the declared states that are not accepting as the argument
    [F], [accepted] answers the opposite of what it answers by default, on
    each word whose run returns a declared state. *)
Theorem accepted_complement (self : AFD) (q : string) (w : list string)
    (qf : string) :
  final_state self q w = Ok qf → qf ∈ Q self →
  accepted self q w (Some (filter (λ s, s ∉ F self) (Q self)))
  = negb (accepted self q w None).
Proof.
  intros Hqf Hin. unfold accepted. rewrite Hqf.
  destruct (decide (qf ∈ F self)) as [HF|HF].
  - rewrite (bool_decide_eq_true_2 (qf ∈ F self)) by done. simpl.
    apply bool_decide_eq_false_2. rewrite list_elem_of_filter. tauto.
  - rewrite (bool_decide_eq_false_2 (qf ∈ F self)) by done. simpl.
    apply bool_decide_eq_true_2. by rewrite list_elem_of_filter.
Qed.

Lemma accepted_complement_witness :
  accepted afd1_object "q0" (chars "10") (Some ["q0"; "q1"]) = true
  ∧ accepted afd1_object "q0" (chars "10") None = false.
Proof.
  split; [|reflexivity].
  change (Some ["q0"; "q1"])
    with (Some (filter (λ s, s ∉ F afd1_object) (Q afd1_object))).
  rewrite (accepted_complement afd1_object "q0" (chars "10") "q1");
    [reflexivity|reflexivity|compute_done].
Defined.

(** X8. The answer of [accepted] grows with the argument [F]: no word is
    accepted with the empty list, a word accepted with a list is accepted
    with every list that includes it, and passing [self.F] is the default. *)
Theorem accepted_monotone (self : AFD) (q : string) (w : list string) :
  accepted self q w (Some []) = false
  ∧ (∀ F1 F2 : list string,
       F1 ⊆ F2 → accepted self q w (Some F1) = true →
       accepted self q w (Some F2) = true)
  ∧ accepted self q w (Some (F self)) = accepted self q w None.
Proof.
  unfold accepted. split_and!; [| |done].
  - destruct (final_state self q w) as [qf|e]; [|done].
    apply bool_decide_eq_false_2, not_elem_of_nil.
  - intros F1 F2 Hsub. destruct (final_state self q w) as [qf|e]; [|done].
    rewrite !bool_decide_eq_true. apply Hsub.
Qed.

Lemma accepted_monotone_witness :
  accepted afd1_object "q0" (chars "01") (Some ["q2"; "q1"]) = true.
Proof.
  destruct (accepted_monotone afd1_object "q0" (chars "01")) as (_ & Hmono & _).
  apply (Hmono ["q2"] ["q2"; "q1"]); [|reflexivity].
  intros x Hx. apply list_elem_of_singleton in Hx as ->. compute_done.
Defined.

(** * Further properties of the construction *)

Lemma key_of_fst (t : string * string * string) : key_of t = t.1.
Proof. by destruct t as [[??]?]. Qed.

Lemma load_rows_app ts rest d :
  load_rows ((row_of <$> ts) ++ rest) d = load_rows rest (foldl assign d ts).
Proof.
  revert d. induction ts as [|[[q a] q'] ts IH]; intros d; [done|].
  simpl. apply IH.
Qed.

Lemma unpack3_Ok row t : unpack3 row = Ok t → row = row_of t.
Proof.
  destruct row as [|q [|a [|q' [|x row]]]]; try done. by intros [= <-].
Qed.

Lemma unpack3_bad row :
  length row ≠ 3 → unpack3 row = Raise (UnpackError (length row)).
Proof. by destruct row as [|q [|a [|q' [|x row]]]]. Qed.

Lemma load_rows_Ok rows d d' :
  load_rows rows d = Ok d' → ∃ ts, rows = row_of <$> ts.
Proof.
  revert d. induction rows as [|row rows IH]; intros d; simpl.
  { by exists []. }
  destruct (unpack3 row) as [[[q a] q']|e] eqn:Hrow; [|done]. simpl.
  intros [ts ->]%IH. apply unpack3_Ok in Hrow as ->.
  by exists ((q, a, q') :: ts).
Qed.

(** The entry of a key after the assignments of a list of triples. *)
Lemma lookup_foldl_assign ts d k :
  foldl assign d ts !! k
  = match last (filter (λ t, key_of t = k) ts) with
    | Some t => Some t.2
    | None => d !! k
    end.
Proof.
  revert d. induction ts as [|u ts IH] using rev_ind; intros d; [done|].
  rewrite foldl_app, filter_app. simpl. unfold assign at 1.
  rewrite filter_cons, filter_nil.
  destruct (decide (key_of u = k)) as [<-|Hne].
  - by rewrite lookup_insert_eq, last_snoc.
  - rewrite lookup_insert_ne, app_nil_r by done. apply IH.
Qed.

Lemma last_filter_key_Some ts k (u : string * string * string) :
  last (filter (λ t, key_of t = k) ts) = Some u ↔
  key_of u = k
  ∧ ∃ pre post, ts = pre ++ u :: post ∧ Forall (λ t, key_of t ≠ k) post.
Proof.
  induction ts as [|v ts IH] using rev_ind.
  { split; [done|]. intros (_ & pre & post & Hts & _). by destruct pre. }
  rewrite filter_app, filter_cons, filter_nil.
  destruct (decide (key_of v = k)) as [Hv|Hv].
  - rewrite last_snoc. split.
    + intros [= <-]. split; [done|]. exists ts, []. by split.
    + intros (Hu & pre & post & Hts & Hpost).
      destruct post as [|p post _] using rev_ind.
      * apply app_inj_tail in Hts as [_ ->]. done.
      * rewrite app_comm_cons, app_assoc in Hts.
        apply app_inj_tail in Hts as [_ ->].
        apply Forall_app in Hpost as [_ [Hp _]%Forall_cons]. done.
  - rewrite app_nil_r, IH. split.
    + intros (Hu & pre & post & -> & Hpost). split; [done|].
      exists pre, (post ++ [v]). split; [by rewrite <- app_assoc|].
      apply Forall_app. split; [done|]. by constructor.
    + intros (Hu & pre & post & Hts & Hpost). split; [done|].
      destruct post as [|p post _] using rev_ind.
      * apply app_inj_tail in Hts as [_ ->]. done.
      * rewrite app_comm_cons, app_assoc in Hts.
        apply app_inj_tail in Hts as [-> ->].
        apply Forall_app in Hpost as [Hpost _]. by exists pre, post.
Qed.

Lemma last_filter_key_None ts k :
  last (filter (λ t : string * string * string, key_of t = k) ts) = None ↔
  Forall (λ t, key_of t ≠ k) ts.
Proof.
  rewrite last_None. split.
  - intros Hnil. apply Forall_forall. intros t Ht Hk.
    assert (t ∈ filter (λ t, key_of t = k) ts) as Hin
      by (by apply list_elem_of_filter).
    rewrite Hnil in Hin. by apply not_elem_of_nil in Hin.
  - intros Hall. induction Hall as [|t ts Ht _ IH]; [done|].
    by rewrite filter_cons_False.
Qed.

(** X9. [__init__] raises on the first row of the list that has not three
    components, with the [ValueError] of the unpacking, whatever comes
    after that row; it returns exactly when every row has three
    components. *)
Theorem init_raises_on_bad_row (Q Sigma : list string) (q0 : string)
    (F : list string) (rows : list (list string)) :
  (∀ ts bad rest,
     rows = (row_of <$> ts) ++ bad :: rest → length bad ≠ 3 →
     AFD_init Q Sigma q0 F (DeltaList rows) = Raise (UnpackError (length bad)))
  ∧ ((∃ self, AFD_init Q Sigma q0 F (DeltaList rows) = Ok self)
     ↔ Forall (λ row, length row = 3) rows).
Proof.
  split.
  - intros ts bad rest -> Hbad. simpl. rewrite load_rows_app. simpl.
    by rewrite unpack3_bad.
  - simpl. split.
    + intros [self Hself].
      destruct (load_rows rows ∅) as [d|e] eqn:Hload; [|done].
      apply load_rows_Ok in Hload as [ts ->].
      apply Forall_fmap, Forall_forall. by intros [[??]?] _.
    + intros Hrows.
      assert (∃ ts, rows = row_of <$> ts) as [ts ->].
      { induction Hrows as [|row rows Hrow _ [ts ->]]; [by exists []|].
        destruct row as [|q [|a [|q' [|x row]]]]; try done.
        by exists ((q, a, q') :: ts). }
      rewrite load_rows_triples. by eexists.
Qed.

Lemma init_raises_on_bad_row_witness :
  AFD_init ["p"] ["a"] "p" ["p"]
    (DeltaList [ ["p"; "a"; "p"]; ["p"; "a"]; ["p"] ])
  = Raise (UnpackError 2).
Proof.
  apply (proj1 (init_raises_on_bad_row ["p"] ["a"] "p" ["p"]
                  [ ["p"; "a"; "p"]; ["p"; "a"]; ["p"] ])
           [("p", "a", "p")] ["p"; "a"] [ ["p"] ]);
    [reflexivity|discriminate].
Defined.

(** X10. In the object built from a list of triples, the table has an
    entry for a pair exactly when some triple has that pair, and the entry
    is the target of the last such triple; a pair of no triple is a missing
    key, for which [transition] returns [None]. *)
Theorem init_table_entries (Q Sigma : list string) (q0 : string)
    (F : list string) (ts : list (string * string * string)) (self : AFD) :
  AFD_init Q Sigma q0 F (DeltaList (row_of <$> ts)) = Ok self →
  ∀ q a,
    (∀ t, transition self q a = Some t ↔
          ∃ pre post, ts = pre ++ (q, a, t) :: post
                      ∧ Forall (λ u, key_of u ≠ (q, a)) post)
    ∧ (transition self q a = None ↔ Forall (λ u, key_of u ≠ (q, a)) ts).
Proof.
  simpl. rewrite load_rows_triples. intros [= <-] q a.
  unfold transition. simpl. rewrite lookup_foldl_assign, lookup_empty.
  split.
  - intros t.
    destruct (last (filter (λ u, key_of u = (q, a)) ts)) as [u|] eqn:Hl.
    + apply last_filter_key_Some in Hl as (Hk & pre & post & -> & Hpost).
      destruct u as [[q1 a1] t1]. injection Hk as -> ->. simpl. split.
      * intros [= ->]. by exists pre, post.
      * intros (pre' & post' & Hts & Hpost'). f_equal.
        assert (last (filter (λ u, key_of u = (q, a))
                        (pre ++ (q, a, t1) :: post)) = Some (q, a, t)) as H1.
        { apply last_filter_key_Some. split; [done|]. by exists pre', post'. }
        assert (last (filter (λ u, key_of u = (q, a))
                        (pre ++ (q, a, t1) :: post)) = Some (q, a, t1)) as H2.
        { apply last_filter_key_Some. split; [done|]. by exists pre, post. }
        congruence.
    + split; [done|]. intros (pre & post & -> & Hpost).
      apply last_filter_key_None in Hl.
      by apply Forall_app in Hl as [_ [Hk _]%Forall_cons].
  - rewrite <- last_filter_key_None.
    by destruct (last (filter (λ u, key_of u = (q, a)) ts)).
Qed.

Lemma init_table_entries_witness :
  ∃ self,
    AFD_init ["p"; "r"] ["a"; "b"] "p" ["r"]
      (DeltaList [ ["p"; "a"; "r"]; ["r"; "a"; "p"] ]) = Ok self
    ∧ transition self "p" "b" = None ∧ transition self "p" "a" = Some "r".
Proof.
  eexists. split; [reflexivity|].
  match goal with |- transition ?A _ _ = _ ∧ _ => set (self := A) end.
  assert (AFD_init ["p"; "r"] ["a"; "b"] "p" ["r"]
            (DeltaList (row_of <$> [("p", "a", "r"); ("r", "a", "p")]))
          = Ok self) as Hself by reflexivity.
  destruct (init_table_entries _ _ _ _ _ self Hself "p" "b") as [_ Hnone].
  destruct (init_table_entries _ _ _ _ _ self Hself "p" "a") as [Hsome _].
  split.
  - apply Hnone. repeat constructor; discriminate.
  - apply Hsome. exists [], [("r", "a", "p")]. split; [reflexivity|].
    repeat constructor; discriminate.
Defined.

(** The assignments of triples with distinct pairs build the dictionary of
    which the triples are the entries. *)
Lemma foldl_assign_list_to_map (ts : list (string * string * string)) :
  NoDup (key_of <$> ts) → foldl assign ∅ ts = list_to_map ts.
Proof.
  intros Hnd.
  assert (NoDup ts.*1) as Hnd'.
  { erewrite list_fmap_ext; [exact Hnd|]. intros _ t _. by rewrite key_of_fst. }
  apply map_eq. intros k. apply option_eq. intros t.
  rewrite <- elem_of_list_to_map by done.
  rewrite lookup_foldl_assign, lookup_empty. split.
  - destruct (last (filter (λ u, key_of u = k) ts)) as [u|] eqn:Hl; [|done].
    intros [= <-].
    apply last_filter_key_Some in Hl as (Hk & pre & post & -> & _).
    rewrite key_of_fst in Hk. subst k. destruct u as [k t].
    apply elem_of_app. right. apply list_elem_of_here.
  - intros Hin. apply list_elem_of_split in Hin as (pre & post & ->).
    assert (last (filter (λ u, key_of u = k) (pre ++ (k, t) :: post))
            = Some (k, t)) as ->; [|done].
    apply last_filter_key_Some. split; [by rewrite key_of_fst|].
    exists pre, post. split; [done|].
    rewrite fmap_app, fmap_cons in Hnd'.
    apply NoDup_app in Hnd' as (_ & _ & [Hk _]%NoDup_cons).
    apply Forall_forall. intros u Hu Hku. apply Hk.
    rewrite key_of_fst in Hku. simpl. rewrite <- Hku.
    by apply list_elem_of_fmap_2.
Qed.

(** X11. The two shapes carry the same automaton: the object built from
    the list of the entries of a dictionary, listed in any order, is the
    object built from the dictionary. *)
Theorem init_list_of_dict (Q Sigma : list string) (q0 : string)
    (F : list string) (d : gmap (string * string) string)
    (ts : list (string * string * string)) :
  ts ≡ₚ map_to_list d →
  AFD_init Q Sigma q0 F (DeltaList (row_of <$> ts))
  = AFD_init Q Sigma q0 F (DeltaDict d).
Proof.
  intros Hperm. simpl. rewrite load_rows_triples. simpl. do 2 f_equal.
  assert (NoDup ts.*1) as Hnd.
  { rewrite Hperm. apply NoDup_fst_map_to_list. }
  rewrite foldl_assign_list_to_map.
  - rewrite (list_to_map_proper ts (map_to_list d)) by done.
    apply list_to_map_to_list.
  - erewrite list_fmap_ext; [exact Hnd|]. intros _ t _. by rewrite key_of_fst.
Qed.

Lemma init_list_of_dict_witness :
  AFD_init ["par"; "impar"] ["a"; "b"] "par" ["par"]
    (DeltaList [ ["par"; "a"; "impar"]; ["par"; "b"; "par"];
                 ["impar"; "a"; "par"]; ["impar"; "b"; "impar"] ])
  = afd2.
Proof.
  apply (init_list_of_dict ["par"; "impar"] ["a"; "b"] "par" ["par"]
           (delta afd2_object)
           [ ("par", "a", "impar"); ("par", "b", "par");
             ("impar", "a", "par"); ("impar", "b", "impar") ]).
  apply NoDup_Permutation.
  - compute_done.
  - apply NoDup_map_to_list.
  - intros [[q a] t]. rewrite elem_of_map_to_list.
    rewrite !elem_of_cons, elem_of_nil. unfold afd2_object. simpl. split.
    + intros [[= -> -> ->]|[[= -> -> ->]|[[= -> -> ->]|[[= -> -> ->]|[]]]]];
        reflexivity.
    + intros Ht.
      repeat (apply lookup_insert_Some in Ht as [[[= <- <-] <-]|[_ Ht]];
              [tauto|]).
      by rewrite lookup_empty in Ht.
Defined.

(** X12. The order of the triples matters only between triples of the same
    pair: when no two triples have the same pair (state, symbol), the list
    in any other order builds the same object. *)
Theorem init_order_irrelevant (Q Sigma : list string) (q0 : string)
    (F : list string) (ts ts' : list (string * string * string)) :
  NoDup (key_of <$> ts) → ts ≡ₚ ts' →
  AFD_init Q Sigma q0 F (DeltaList (row_of <$> ts))
  = AFD_init Q Sigma q0 F (DeltaList (row_of <$> ts')).
Proof.
  intros Hnd Hperm. simpl. rewrite !load_rows_triples. simpl. do 2 f_equal.
  rewrite !foldl_assign_list_to_map; [|by rewrite <- Hperm|done].
  apply list_to_map_proper; [|done].
  erewrite list_fmap_ext; [exact Hnd|]. intros _ t _. by rewrite key_of_fst.
Qed.

Lemma init_order_irrelevant_witness :
  AFD_init ["p"; "r"] ["a"] "p" ["r"]
    (DeltaList [ ["p"; "a"; "r"]; ["r"; "a"; "p"] ])
  = AFD_init ["p"; "r"] ["a"] "p" ["r"]
      (DeltaList [ ["r"; "a"; "p"]; ["p"; "a"; "r"] ]).
Proof.
  apply (init_order_irrelevant ["p"; "r"] ["a"] "p" ["r"]
           [("p", "a", "r"); ("r", "a", "p")]
           [("r", "a", "p"); ("p", "a", "r")]).
  - compute_done.
  - apply perm_swap.
Defined.

(** * Words that are Python strings *)

Lemma chars_single s : Forall (λ a, String.length a = 1) (chars s).
Proof. induction s as [|c s IH]; constructor; done. Qed.

Lemma chars_length s : length (chars s) = String.length s.
Proof. induction s as [|c s IH]; simpl; [done|by rewrite IH]. Qed.

Lemma chars_app s1 s2 : chars (s1 +:+ s2) = chars s1 ++ chars s2.
Proof. induction s1 as [|c s1 IH]; simpl; [done|by rewrite IH]. Qed.

(** A run that returns has read symbols of the alphabet only. *)
Lemma final_state_Ok_alphabet (self : AFD) q w qf :
  final_state self q w = Ok qf → Forall (λ a, a ∈ Sigma self) w.
Proof.
  revert q. induction w as [|a w IH]; intros q; simpl; [constructor|].
  case_bool_decide; [|done].
  destruct (transition self q a) as [q'|]; [|done].
  intros Hq'. constructor; [done|by apply (IH q')].
Qed.

(** X13. A word given as a Python string is read one character at a time
    (a character is a byte here, as in ASCII text), so that the symbols of
    the alphabet that are not one character long are never matched: the three queries return on such a word what they return
    on the automaton whose alphabet keeps the one-character symbols only;
    and the trace of a string has one step for each of its characters. *)
Theorem str_word_reads_characters (self : AFD) (q : string) (s : string)
    (F_arg : option (list string)) :
  let other :=
    mkAFD (Q self) (filter (λ a, String.length a = 1) (Sigma self))
      (q0 self) (F self) (delta self) in
  final_state self q (chars s) = final_state other q (chars s)
  ∧ derivation self q (chars s) = derivation other q (chars s)
  ∧ accepted self q (chars s) F_arg = accepted other q (chars s) F_arg
  ∧ (∀ tr, derivation self q (chars s) = Ok tr →
           length tr = String.length s).
Proof.
  intros other.
  assert (∀ w, Forall (λ a, String.length a = 1) w →
               ∀ acc q, final_state self q w = final_state other q w
                        ∧ derivation_loop self acc q w
                          = derivation_loop other acc q w) as Hsame.
  { intros w Hw. induction Hw as [|a w Ha _ IH]; intros acc q1; [done|].
    simpl. unfold transition. simpl.
    rewrite (bool_decide_ext (a ∈ filter _ (Sigma self)) (a ∈ Sigma self))
      by (rewrite list_elem_of_filter; tauto).
    case_bool_decide; [|done].
    destruct (delta self !! (q1, a)) as [q'|]; [apply IH|done]. }
  destruct (Hsame (chars s) (chars_single s) [] q) as [Hf Hd].
  split_and!; [done|done| |].
  - unfold accepted. by rewrite Hf.
  - intros tr Htr.
    pose proof (derivation_final_state self q (chars s)) as Hdf.
    destruct (final_state self q (chars s)) as [qf|e]; [|congruence].
    destruct Hdf as (tr' & Htr' & Hlen & _).
    rewrite <- chars_length. congruence.
Qed.

Lemma str_word_reads_characters_witness :
  final_state (mkAFD ["p"] ["ab"; "a"] "p" ["p"]
                 (<[("p", "ab") := "p"]> (<[("p", "a") := "p"]> ∅)))
    "p" (chars "ab")
  = Raise (SymbolNotInAlphabet "b").
Proof.
  rewrite (proj1 (str_word_reads_characters
                    (mkAFD ["p"] ["ab"; "a"] "p" ["p"]
                       (<[("p", "ab") := "p"]> (<[("p", "a") := "p"]> ∅)))
                    "p" "ab" None)).
  reflexivity.
Defined.

(** * The languages of the two examples *)

(** Case analysis on the hypotheses of membership in an explicit list. *)
Ltac list_cases :=
  repeat match goal with
  | H : _ ∈ [] |- _ => by apply elem_of_nil in H
  | H : _ ∈ _ :: _ |- _ => apply elem_of_cons in H as [->|H]
  end.

(** The state that the first example is in after a word over 0, 1 tells
    how the word ends. *)
Lemma afd1_final_state (w : list string) :
  Forall (λ a, a ∈ ["0"; "1"]) w →
  ∃ qf,
    final_state afd1_object "q0" w = Ok qf
    ∧ ((qf = "q0" ∧ (∀ pre, w ≠ pre ++ ["0"]) ∧ (∀ pre, w ≠ pre ++ ["0"; "1"]))
       ∨ (qf = "q1" ∧ ∃ pre, w = pre ++ ["0"])
       ∨ (qf = "q2" ∧ ∃ pre, w = pre ++ ["0"; "1"])).
Proof.
  induction w as [|a w IH] using rev_ind.
  { intros _. exists "q0". split; [done|]. left.
    split_and!; [done|intros pre; by destruct pre..]. }
  intros [Hw [Ha _]%Forall_cons]%Forall_app.
  destruct (IH Hw) as (qf & Hqf & Hcases). clear IH.
  rewrite final_state_app, Hqf.
  apply elem_of_cons in Ha as [->|Ha%list_elem_of_singleton].
  - exists "q1". split.
    + destruct Hcases as [(-> & _)|[(-> & _)|(-> & _)]]; reflexivity.
    + right. left. split; [done|]. by exists w.
  - subst a. destruct Hcases as [(-> & H0 & _)|[(-> & pre & ->)|(-> & pre & ->)]].
    + exists "q0". split; [reflexivity|]. left. split_and!; [done| |].
      * intros pre [_ [=]]%app_inj_tail.
      * intros pre Hpre.
        change ["0"; "1"] with (["0"] ++ ["1"]) in Hpre.
        rewrite app_assoc in Hpre. apply app_inj_tail in Hpre as [-> _].
        by apply (H0 pre).
    + exists "q2". split; [reflexivity|]. right. right. split; [done|].
      exists pre. by rewrite <- app_assoc.
    + exists "q0". split; [reflexivity|]. left. split_and!; [done| |].
      * intros pre' [_ [=]]%app_inj_tail.
      * intros pre' Hpre.
        change ["0"; "1"] with (["0"] ++ ["1"]) in Hpre.
        rewrite !app_assoc in Hpre. apply app_inj_tail in Hpre as [Hpre _].
        by apply app_inj_tail in Hpre as [_ [=]].
Qed.

(** X14. The automaton of the first example accepts, from its initial
    state, exactly the words over 0, 1 that end in 01, as its docstring
    says. *)
Theorem afd1_accepts_ending_01 (w : list string) :
  accepted afd1_object (q0 afd1_object) w None = true
  ↔ Forall (λ a, a ∈ ["0"; "1"]) w ∧ ∃ pre, w = pre ++ ["0"; "1"].
Proof.
  unfold accepted. simpl. split.
  - destruct (final_state afd1_object "q0" w) as [qf|e] eqn:Hqf; [|done].
    intros Hacc%bool_decide_eq_true%list_elem_of_singleton. subst qf.
    pose proof (final_state_Ok_alphabet _ _ _ _ Hqf) as Hw.
    split; [done|].
    destruct (afd1_final_state w Hw) as (qf & Hqf' & Hcases).
    rewrite Hqf in Hqf'. injection Hqf' as <-.
    by destruct Hcases as [([=] & _)|[([=] & _)|(_ & Hpre)]].
  - intros [Hw [pre ->]].
    destruct (afd1_final_state _ Hw) as (qf & -> & Hcases).
    destruct Hcases as [(_ & _ & H01)|[(_ & pre' & Hpre)|(-> & _)]].
    + by destruct (H01 pre).
    + change ["0"; "1"] with (["0"] ++ ["1"]) in Hpre.
      rewrite app_assoc in Hpre. by apply app_inj_tail in Hpre as [_ [=]].
    + reflexivity.
Qed.

(** The state that the second example is in after a word over a, b: it
    depends on the parity of the number of a. *)
Lemma afd2_final_state (q : string) (w : list string) :
  q ∈ ["par"; "impar"] → Forall (λ a, a ∈ ["a"; "b"]) w →
  final_state afd2_object q w
  = Ok (if Nat.even (length (filter (λ x, x = "a") w))
        then q
        else if bool_decide (q = "par") then "impar" else "par").
Proof.
  intros Hq. induction w as [|a w IH] using rev_ind; [done|].
  intros [Hw [Ha _]%Forall_cons]%Forall_app.
  rewrite final_state_app, IH, filter_app, length_app by done.
  clear IH. apply elem_of_cons in Ha as [->|Ha].
  - change (length (filter (λ x, x = "a") ["a"])) with 1.
    rewrite Nat.add_1_r, Nat.even_succ, <- Nat.negb_even.
    destruct (Nat.even _); list_cases; reflexivity.
  - apply list_elem_of_singleton in Ha as ->.
    change (length (filter (λ x, x = "a") ["b"])) with 0.
    rewrite Nat.add_0_r.
    destruct (Nat.even _); list_cases; reflexivity.
Qed.

(** X15. The automaton of the second example accepts, from its initial
    state, exactly the words over a, b that have an even number of a, as
    its docstring says. *)
Theorem afd2_accepts_even_a (w : list string) :
  accepted afd2_object (q0 afd2_object) w None = true
  ↔ Forall (λ a, a ∈ ["a"; "b"]) w
    ∧ Nat.even (length (filter (λ x, x = "a") w)) = true.
Proof.
  unfold accepted. simpl. split.
  - destruct (final_state afd2_object "par" w) as [qf|e] eqn:Hqf; [|done].
    intros Hacc%bool_decide_eq_true%list_elem_of_singleton. subst qf.
    pose proof (final_state_Ok_alphabet _ _ _ _ Hqf) as Hw.
    split; [done|].
    rewrite afd2_final_state in Hqf by (done || compute_done).
    by destruct (Nat.even _).
  - intros [Hw Heven].
    rewrite afd2_final_state, Heven by (done || compute_done).
    reflexivity.
Qed.

Example afd2_is_afd2_object : afd2 = Ok afd2_object.
Proof. reflexivity. Qed.

(** * Properties of the console functions *)

Example split_comma_parts :
  split_comma "q0, q1,,q2," = ["q0"; " q1"; ""; "q2"; ""]
  ∧ split_comma "" = [""].
Proof. split; reflexivity. Qed.

Section ConsoleFacts.
Variable strip : string → string.
Variable lower : string → string.

(** The transitions that the loop keeps are within the states and the
    alphabet entered before. *)
Lemma read_transitions_valid Q Sigma lines delta delta' :
  Forall (λ t, t.1.1 ∈ Q ∧ t.1.2 ∈ Sigma ∧ t.2 ∈ Q) delta →
  read_transitions strip Q Sigma lines delta = Some delta' →
  Forall (λ t, t.1.1 ∈ Q ∧ t.1.2 ∈ Sigma ∧ t.2 ∈ Q) delta'.
Proof.
  revert delta. induction lines as [|line lines IH]; intros delta Hd; [done|].
  simpl. case_bool_decide; [by intros [= <-]|].
  destruct (strip <$> split_comma (strip line))
    as [|q_from [|symbol [|q_to [|x partes]]]]; try by apply IH.
  repeat case_bool_decide; try by apply IH.
  apply IH. apply Forall_app. split; [done|].
  constructor; [|done]. simpl.
  done.
Qed.

Lemma foldl_assign_Some ts q a t :
  foldl assign ∅ ts !! (q, a) = Some t → (q, a, t) ∈ ts.
Proof.
  rewrite lookup_foldl_assign, lookup_empty.
  destruct (last (filter (λ u, key_of u = (q, a)) ts)) as [u|] eqn:Hl; [|done].
  apply last_filter_key_Some in Hl as (Hk & pre & post & -> & _).
  destruct u as [[q1 a1] t1]. injection Hk as -> ->. intros [= ->].
  apply elem_of_app. right. apply list_elem_of_here.
Qed.

(** X16. An automaton that [crear_afd_manual] returns is well formed: it
    has a state and a symbol, its initial state and its accepting states
    are declared states, and each entry of its table leads from a declared
    state, on a symbol of the alphabet, to a declared state; so that the
    runs from its initial state stay within its declared states. *)
Theorem manual_automaton_well_formed (lines : list string) (afd : AFD) :
  crear_afd_manual strip lines = Some afd →
  Q afd ≠ [] ∧ Sigma afd ≠ []
  ∧ q0 afd ∈ Q afd ∧ F afd ⊆ Q afd
  ∧ (∀ q a t, transition afd q a = Some t →
              q ∈ Q afd ∧ a ∈ Sigma afd ∧ t ∈ Q afd)
  ∧ (∀ w qf, final_state afd (q0 afd) w = Ok qf → qf ∈ Q afd).
Proof.
  unfold crear_afd_manual.
  destruct lines as [|estados_input [|alfabeto_input [|q0_input
    [|final_input lines]]]]; try done; repeat case_bool_decide; try done.
  destruct (read_transitions _ _ _ _ _) as [delta|] eqn:Hdelta; [|done].
  simpl. rewrite load_rows_triples. simpl. intros [= <-]. simpl.
  apply read_transitions_valid in Hdelta; [|constructor].
  assert (∀ q a t, foldl assign ∅ delta !! (q, a) = Some t →
            q ∈ labels_of strip (strip estados_input)
            ∧ a ∈ labels_of strip (strip alfabeto_input)
            ∧ t ∈ labels_of strip (strip estados_input)) as Hentries.
  { intros q a t Hin%foldl_assign_Some.
    rewrite Forall_forall in Hdelta. apply (Hdelta _ Hin). }
  split_and!; [done|done|done| |apply Hentries|].
  - intros x [[_ Hx] _]%list_elem_of_filter. done.
  - intros w qf.
    apply (final_state_in_Q
             (mkAFD _ _ _ _ (foldl assign ∅ delta))); [|done].
    intros [q a] t Ht. by apply (Hentries q a t).
Qed.


End ConsoleFacts.

Lemma manual_automaton_well_formed_witness :
  ∃ afd,
    crear_afd_manual (λ s, s)
      ["p,r"; "a"; "p"; "r,x"; "p,a,r"; "r,a,p"; "x,a,p"; "r,b,p"; ""]
    = Some afd
    ∧ Q afd = ["p"; "r"] ∧ F afd = ["r"]
    ∧ transition afd "x" "a" = None
    ∧ q0 afd ∈ Q afd.
Proof.
  destruct (crear_afd_manual (λ s, s)
              ["p,r"; "a"; "p"; "r,x"; "p,a,r"; "r,a,p"; "x,a,p"; "r,b,p"; ""])
    as [afd|] eqn:Hafd; [|by vm_compute in Hafd].
  exists afd. split; [reflexivity|].
  destruct (manual_automaton_well_formed (λ s, s) _ afd Hafd)
    as (_ & _ & Hq0 & _).
  vm_compute in Hafd. injection Hafd as <-.
  split; [reflexivity|]. split; [reflexivity|]. split; [reflexivity|].
  exact Hq0.
Defined.

(** * The list that [derivation] returns *)

Module StoreMore.
Import Store.

(** X18. The list that [derivation] returns is a new object of the store,
    that holds the trace: it is none of the objects that were there before
    the call, in particular none of the lists and not the dictionary of the
    automaton; and a later call of [derivation] leaves it as it is and
    returns another list. *)
Theorem derivation_returns_new_list (h : store) (self : loc) (A : AFD)
    (q : string) (w : list string) (tr : list (string * string * string))
    (q' : string) (w' : list string) :
  read_AFD h self = Some A →
  run_derivation A q w = Ok tr →
  let first := derivation self q w h in
  let second := derivation self q' w' first.2 in
  first.1 = Returns (length h)
  ∧ h !! length h = None
  ∧ first.2 !! length h = Some (StepList tr)
  ∧ second.2 !! length h = Some (StepList tr)
  ∧ (∀ l, second.1 = Returns l → l ≠ length h)
  ∧ read_AFD second.2 self = Some A.
Proof.
  intros HA Htr first second.
  destruct (StoreFacts.derivation_refines h self A q w HA)
    as (items & Hfirst & Hitems).
  rewrite Htr in Hfirst. rewrite (Hitems tr Htr) in Hfirst.
  assert (read_AFD (h ++ [StepList tr]) self = Some A) as HA'
    by (by apply StoreFacts.read_AFD_alloc).
  destruct (StoreFacts.derivation_refines (h ++ [StepList tr]) self A q' w' HA')
    as (items' & Hsecond & _).
  subst first second. rewrite Hfirst. simpl. rewrite Hsecond. simpl.
  assert ((h ++ [StepList tr]) !! length h = Some (StepList tr)) as Hnew.
  { rewrite lookup_app_r, Nat.sub_diag by done. done. }
  split_and!.
  - done.
  - by apply lookup_ge_None_2.
  - done.
  - by apply lookup_app_l_Some.
  - intros l. destruct (run_derivation A q' w'); [|done].
    intros [= <-]. rewrite length_app. simpl. lia.
  - by apply StoreFacts.read_AFD_alloc.
Qed.

Lemma derivation_returns_new_list_witness :
  (derivation 4 "q0" (chars "01") store_afd1).1 = Returns 5
  ∧ (derivation 4 "q0" (chars "1")
       (derivation 4 "q0" (chars "01") store_afd1).2).2 !! 5
    = Some (StepList [("q0", "0", "q1"); ("q1", "1", "q2")]).
Proof.
  destruct (derivation_returns_new_list store_afd1 4 afd1_object
              "q0" (chars "01") [("q0", "0", "q1"); ("q1", "1", "q2")]
              "q0" (chars "1") eq_refl eq_refl)
    as (Hfirst & _ & _ & Hsecond & _).
  split; [exact Hfirst|exact Hsecond].
Defined.
End StoreMore.
